(** * The IOTA attachToTangle interceptor (package [iota], file [iota/plugin.go])

    A shallow embedding of [Interceptor.ServeHTTP] and of the pieces of
    package state it reads, followed by the properties of the handler.

    The handler is written in explicit state-passing style over a [World]
    that carries the wall clock and the trace of the effects performed so
    far (lock operations, log lines, forwards to the next handler, calls of
    the proof-of-work primitive, response writes).  The collaborators that
    live outside the package (the JSON codec, the transaction decoder, the
    proof-of-work primitive, the response writer) are fields of an [Env]
    record, so that every statement is universal in them. *)

From Stdlib Require Import ZArith Lia Strings.Byte.
From stdpp Require Import base list strings pretty relations.

Local Open Scope Z_scope.

(* ===================================================================== *)
(** ** Integers                                                           *)
(* ===================================================================== *)

(** Go's [int64] results are reduced into [-2^63, 2^63). *)
Definition wrap64 (x : Z) : Z := (x + 2 ^ 63) mod 2 ^ 64 - 2 ^ 63.

(** The conversion [uint64(x)]. *)
Definition uint64 (x : Z) : Z := x mod 2 ^ 64.

Definition sub64 (a b : Z) : Z := wrap64 (a - b).
Definition add64 (a b : Z) : Z := wrap64 (a + b).

(** Go's integer division truncates toward zero; dividing an [int64] by
    [1000000] cannot leave the type. *)
Definition millis (ns : Z) : Z := Z.quot ns 1000000.

(* ===================================================================== *)
(** ** Data model                                                         *)
(* ===================================================================== *)

(** [trinary.Trytes] is a Go string. *)
Definition Trytes := string.

(** The package-level error values. [Wrapf cause format arg] stands for
    [errors.Wrapf(cause, format, arg)]; the text of the message is not
    rendered. *)
Inductive error :=
| ErrMissingBody
| ErrBuildingTx
| ErrBuildingRes
| ErrTxBundleLimitExceeded
| ErrExecutingProofOfWork
| ErrInvalidMWM
| Wrapf (cause : error) (format : string) (arg : Z).

Definition StatusOK : Z := 200.
Definition StatusBadRequest : Z := 400.
Definition StatusInternalServerError : Z := 500.

Definition MethodPost : string := "POST".
Definition attachToTangleCommand : string := "attachToTangle".
Definition contentType : string := "Content-Type".
Definition contentTypeJSON : string := "application/json".

(** A request body is a read-once stream: the bytes not read yet, and
    whether the transport reports an error once they are exhausted. *)
Record Reader := {
  unread : list byte;
  faulty : bool
}.

(** [ioutil.ReadAll]: everything that was left, the error if any, and the
    drained stream. *)
Definition ReadAll (b : Reader) : list byte * bool * Reader :=
  (unread b, faulty b, {| unread := []; faulty := faulty b |}).

(** [ioutil.NopCloser(bytes.NewReader(contents))]. *)
Definition NewReader (contents : list byte) : Reader :=
  {| unread := contents; faulty := false |}.

(** The fields of [http.Request] the handler touches. *)
Record Request := {
  Method : string;
  Body : option Reader;
  RemoteAddr : string
}.

Definition with_Body (r : Request) (b : option Reader) : Request :=
  {| Method := Method r; Body := b; RemoteAddr := RemoteAddr r |}.

(** What a handler further down the chain can still read from the body. *)
Definition readable_body (r : Request) : list byte :=
  match Body r with
  | Some b => unread b
  | None => []
  end.

Record AttachToTangleReq := {
  Command : string;
  TrunkTxHash : Trytes;
  BranchTxHash : Trytes;
  MWM : Z;
  Trytes_req : list Trytes
}.

Record AttachToTangleRes := {
  Trytes_res : list Trytes;
  Duration : Z
}.

(** The fields of [transaction.Transaction] the handler reads. *)
Record Transaction := {
  Address : Trytes;
  Value : Z;
  Bundle : Trytes
}.

(** The zero value [make] fills a fresh slice with. *)
Definition zeroTransaction : Transaction :=
  {| Address := ""; Value := 0; Bundle := "" |}.

(** The lines written to the logger.  The amounts that the source prints as
    floating-point Mi are carried as the integer they are computed from. *)
Inductive LogMsg :=
| LogNewRequest (remoteAddr : string)
| LogCancel (n limit : Z)
| LogInput (address : Trytes) (value : Z)
| LogOutput (address : Trytes) (value : Z)
| LogBundle (bundle : Trytes)
| LogInputTotal (inputValue : Z)
| LogDoingPoW (txsCount : Z)
| LogTook (ms txsCount : Z).

(** The effects of one call of the handler, in program order. *)
Inductive Event :=
| EvLock
| EvUnlock
| EvLog (m : LogMsg)
| EvForward (r : Request)
| EvPoWCall (trunk branch : Trytes) (trytes : list Trytes) (mwm : Z)
| EvPoWReturn (res : option (list Trytes))
| EvSetHeader (k v : string)
| EvWrite (b : list byte) (ok : bool).

(** How a call of the handler ends.  [Forwarded r ret] is
    [return interc.Next.ServeHTTP(w, r)], [Rejected status err] is
    [return status, err], [Responded res] is [return http.StatusOK, nil]
    after [res] was written, and [Panicked] is a run-time index error. *)
Inductive Outcome :=
| Forwarded (r : Request) (ret : Z * option error)
| Rejected (status : Z) (err : error)
| Responded (res : AttachToTangleRes)
| Panicked.

(** The pair the Go function returns. *)
Definition returned (o : Outcome) : option (Z * option error) :=
  match o with
  | Forwarded _ ret => Some ret
  | Rejected status err => Some (status, Some err)
  | Responded _ => Some (StatusOK, None)
  | Panicked => None
  end.

(* ===================================================================== *)
(** ** Collaborators and package state                                    *)
(* ===================================================================== *)

Record Interceptor := {
  Next : Request -> Z * option error
}.

(** [maxMWM] and [maxTxInBundle] are the package variables [setup] assigns
    from [strconv.Atoi]; they are Go [int]s and may hold any value.
    [DoPoW] is [pow.DoPoW] applied to the package's [powFn]; [Write_ok]
    tells whether [w.Write] succeeds. *)
Record Env := {
  json_Unmarshal : list byte -> option AttachToTangleReq;
  AsTransactionObject : Trytes -> option Transaction;
  DoPoW : Trytes -> Trytes -> list Trytes -> Z -> option (list Trytes);
  json_Marshal : AttachToTangleRes -> option (list byte);
  Write_ok : list byte -> bool;
  maxTxInBundle : Z;
  maxMWM : Z
}.

(** The wall clock in nanoseconds, the time each effect takes when it is
    performed (for [EvLock], the time spent blocked in [mu.Lock()]), and
    the effects performed so far, oldest first. *)
Record World := {
  now : Z;
  elapsed : Event -> Z;
  events : list Event
}.

Definition emit (e : Event) (wd : World) : World :=
  {| now := now wd + elapsed wd e;
     elapsed := elapsed wd;
     events := events wd ++ [e] |}.

(** [time.Now().UnixNano()]. *)
Definition UnixNano (wd : World) : Z := wrap64 (now wd).

Definition logPrintf (m : LogMsg) (wd : World) : World :=
  emit (EvLog m) wd.

(** The world a request starts in. *)
Definition boot (t0 : Z) (timing : Event -> Z) : World :=
  {| now := t0; elapsed := timing; events := [] |}.

(* ===================================================================== *)
(** ** The handler                                                        *)
(* ===================================================================== *)

(** [return interc.Next.ServeHTTP(w, r)]. *)
Definition forward (interc : Interceptor) (r : Request)
    (wd : World) : Outcome * World :=
  (Forwarded r (Next interc r), emit (EvForward r) wd).

(** The locals the decoding loop updates. *)
Record DecodeState := {
  isValueBundle : bool;
  inputValue : Z;
  transactions : list Transaction
}.

Inductive LoopResult :=
| LoopDone (ds : DecodeState)
| LoopFailed
| LoopPanicked.

(** The body of the loop at index [i], lines 178-192: decode, account for
    the value, store. *)
Definition decode_step (E : Env) (txTrytes : list Trytes) (i : nat)
    (ds : DecodeState) (wd : World) : LoopResult * World :=
  match txTrytes !! i with
  | None => (LoopPanicked, wd)
  | Some t =>
    match AsTransactionObject E t with
    | None => (LoopFailed, wd)
    | Some tx =>
      let '(ds1, wd1) :=
        if negb (Value tx =? 0) then
          if Value tx <? 0 then
            ({| isValueBundle := true;
                inputValue := add64 (inputValue ds) (Value tx);
                transactions := transactions ds |},
             logPrintf (LogInput (Address tx) (Value tx)) wd)
          else
            ({| isValueBundle := true;
                inputValue := inputValue ds;
                transactions := transactions ds |},
             logPrintf (LogOutput (Address tx) (Value tx)) wd)
        else (ds, wd) in
      if bool_decide (i < length (transactions ds1))%nat then
        (LoopDone {| isValueBundle := isValueBundle ds1;
                     inputValue := inputValue ds1;
                     transactions := <[i := tx]> (transactions ds1) |}, wd1)
      else (LoopPanicked, wd1)
    end
  end.

(** [for i := len(txTrytes) - 1; i >= 0; i--], entered with [k = i + 1]. *)
Fixpoint decode_loop (E : Env) (txTrytes : list Trytes) (k : nat)
    (ds : DecodeState) (wd : World) : LoopResult * World :=
  match k with
  | O => (LoopDone ds, wd)
  | S i =>
    match decode_step E txTrytes i ds wd with
    | (LoopDone ds1, wd1) => decode_loop E txTrytes i ds1 wd1
    | stop => stop
    end
  end.

(** Lines 201-222: the call of the primitive and the response. *)
Definition compute_and_respond (E : Env) (command : AttachToTangleReq)
    (start txsCount : Z) (wd : World) : Outcome * World :=
  let trunkTxHash := TrunkTxHash command in
  let branchTxHash := BranchTxHash command in
  let txTrytes := Trytes_req command in
  let wd1 := logPrintf (LogDoingPoW txsCount) wd in
  let s := UnixNano wd1 in
  let mwm := uint64 (MWM command) in
  let wd2 := emit (EvPoWCall trunkTxHash branchTxHash txTrytes mwm) wd1 in
  let powed := DoPoW E trunkTxHash branchTxHash txTrytes mwm in
  let wd3 := emit (EvPoWReturn powed) wd2 in
  match powed with
  | None => (Rejected StatusBadRequest ErrExecutingProofOfWork, wd3)
  | Some powedBundle =>
    let wd4 :=
      logPrintf (LogTook (millis (sub64 (UnixNano wd3) s)) txsCount) wd3 in
    let res := {| Trytes_res := powedBundle;
                  Duration := millis (sub64 (UnixNano wd4) start) |} in
    match json_Marshal E res with
    | None => (Rejected StatusInternalServerError ErrBuildingRes, wd4)
    | Some resBytes =>
      let wd5 := emit (EvSetHeader contentType contentTypeJSON) wd4 in
      let wd6 := emit (EvSetHeader "access-control-allow-origin" "*") wd5 in
      let ok := Write_ok E resBytes in
      let wd7 := emit (EvWrite resBytes ok) wd6 in
      if ok then (Responded res, wd7)
      else (Rejected StatusInternalServerError ErrBuildingRes, wd7)
    end
  end.

(** Lines 158-222: what runs between [mu.Lock()] and the deferred
    [mu.Unlock()]. *)
Definition locked_section (E : Env) (interc : Interceptor) (r : Request)
    (command : AttachToTangleReq) (wd : World) : Outcome * World :=
  let txTrytes := Trytes_req command in
  if (length txTrytes =? 0)%nat then forward interc r wd
  else
    let wd1 := logPrintf (LogNewRequest (RemoteAddr r)) wd in
    if Z.of_nat (length txTrytes) >? maxTxInBundle E then
      let wd2 :=
        logPrintf (LogCancel (Z.of_nat (length txTrytes)) (maxTxInBundle E))
          wd1 in
      (Rejected StatusBadRequest
         (Wrapf ErrTxBundleLimitExceeded "max allowed is %d" (maxTxInBundle E)),
       wd2)
    else
      let start := UnixNano wd1 in
      let transactions0 := replicate (length txTrytes) zeroTransaction in
      let txsCount := Z.of_nat (length transactions0) in
      match decode_loop E txTrytes (length txTrytes)
              {| isValueBundle := false; inputValue := 0;
                 transactions := transactions0 |} wd1 with
      | (LoopPanicked, wd2) => (Panicked, wd2)
      | (LoopFailed, wd2) => (Rejected StatusBadRequest ErrBuildingTx, wd2)
      | (LoopDone ds, wd2) =>
        match transactions ds !! 0%nat with
        | None => (Panicked, wd2)
        | Some tx0 =>
          let wd3 := logPrintf (LogBundle (Bundle tx0)) wd2 in
          let wd4 :=
            if isValueBundle ds
            then logPrintf (LogInputTotal (inputValue ds)) wd3
            else wd3 in
          compute_and_respond E command start txsCount wd4
        end
      end.

(** [func (interc Interceptor) ServeHTTP(w, r) (int, error)].  The deferred
    [mu.Unlock()] runs whichever way the locked section is left, a panic
    included. *)
Definition ServeHTTP (E : Env) (interc : Interceptor) (r : Request)
    (wd : World) : Outcome * World :=
  if negb (String.eqb (Method r) MethodPost) then forward interc r wd
  else
    match Body r with
    | None => (Rejected StatusBadRequest ErrMissingBody, wd)
    | Some body =>
      let '(contents, err, drained) := ReadAll body in
      let r1 := with_Body r (Some drained) in
      if err then (Rejected StatusBadRequest ErrMissingBody, wd)
      else
        match json_Unmarshal E contents with
        | None => forward interc r1 wd
        | Some command =>
          let r2 := with_Body r (Some (NewReader contents)) in
          if negb (String.eqb (Command command) attachToTangleCommand)
          then forward interc r2 wd
          else if (MWM command >? maxMWM E) || (MWM command <? 0) then
            (Rejected StatusBadRequest
               (Wrapf ErrInvalidMWM "use mwm between 1-%d" (maxMWM E)), wd)
          else
            let wd1 := emit EvLock wd in
            let '(out, wd2) := locked_section E interc r2 command wd1 in
            (out, emit EvUnlock wd2)
        end
    end.

(* ===================================================================== *)
(** ** Concurrent requests                                                *)
(* ===================================================================== *)

(** The host runs every request on a goroutine of its own; the goroutines
    share the package mutex [mu] and nothing else.  A goroutine is the trace
    of its call of [ServeHTTP], split into the effects it has performed and
    those still ahead of it; the scheduler picks any goroutine whose next
    effect is enabled.  [mu.Lock()] is enabled only while the mutex is free,
    [mu.Unlock()] only while it is locked (unlocking a free [sync.Mutex] is
    a fatal error), anything else always. *)

Definition lock_after (held : bool) (e : Event) : bool :=
  match e with
  | EvLock => true
  | EvUnlock => false
  | _ => held
  end.

Definition pow_after (inside : bool) (e : Event) : bool :=
  match e with
  | EvPoWCall _ _ _ _ => true
  | EvPoWReturn _ => false
  | _ => inside
  end.

(** After the effects [tr]: has the goroutine locked [mu] and not unlocked
    it since; is it inside a call of the primitive. *)
Definition holding (tr : list Event) : bool := fold_left lock_after tr false.
Definition computing (tr : list Event) : bool := fold_left pow_after tr false.

Record Goroutine := {
  performed : list Event;
  pending : list Event
}.

Definition advance (g : Goroutine) : Goroutine :=
  match pending g with
  | [] => g
  | e :: rest => {| performed := performed g ++ [e]; pending := rest |}
  end.

Record Pool := {
  mu : bool;
  goroutines : list Goroutine
}.

Inductive step : Pool -> Pool -> Prop :=
| step_Lock (i : nat) (g : Goroutine) (rest : list Event)
    (gs : list Goroutine) :
    gs !! i = Some g ->
    pending g = EvLock :: rest ->
    step {| mu := false; goroutines := gs |}
         {| mu := true; goroutines := <[i := advance g]> gs |}
| step_Unlock (i : nat) (g : Goroutine) (rest : list Event)
    (gs : list Goroutine) :
    gs !! i = Some g ->
    pending g = EvUnlock :: rest ->
    step {| mu := true; goroutines := gs |}
         {| mu := false; goroutines := <[i := advance g]> gs |}
| step_effect (i : nat) (g : Goroutine) (e : Event) (rest : list Event)
    (gs : list Goroutine) (held : bool) :
    gs !! i = Some g ->
    pending g = e :: rest ->
    e <> EvLock ->
    e <> EvUnlock ->
    step {| mu := held; goroutines := gs |}
         {| mu := held; goroutines := <[i := advance g]> gs |}.

Definition reachable (p q : Pool) : Prop := rtc step p q.

(** One step of the scheduler: goroutine [i] performs its next effect, if
    it has one and it is enabled. *)
Definition fire (i : nat) (p : Pool) : option Pool :=
  match goroutines p !! i with
  | None => None
  | Some g =>
    let moved := <[i := advance g]> (goroutines p) in
    match pending g with
    | [] => None
    | EvLock :: _ =>
      if mu p then None else Some {| mu := true; goroutines := moved |}
    | EvUnlock :: _ =>
      if mu p then Some {| mu := false; goroutines := moved |} else None
    | _ :: _ => Some {| mu := mu p; goroutines := moved |}
    end
  end.

(** The pool after the goroutines of [schedule] have moved, in that order. *)
Fixpoint run (schedule : list nat) (p : Pool) : option Pool :=
  match schedule with
  | [] => Some p
  | i :: schedule' =>
    match fire i p with
    | None => None
    | Some q => run schedule' q
    end
  end.

(** The effects one call adds to the world it starts in. *)
Definition trace_of (E : Env) (interc : Interceptor)
    (job : Request * World) : list Event :=
  drop (length (events (snd job)))
       (events (snd (ServeHTTP E interc (fst job) (snd job)))).

Definition spawn (E : Env) (interc : Interceptor)
    (jobs : list (Request * World)) : Pool :=
  {| mu := false;
     goroutines :=
       (fun job => {| performed := []; pending := trace_of E interc job |})
         <$> jobs |}.

(** A trace keeps the lock discipline from the state [held], [inside] when
    it locks only a mutex it does not hold, unlocks only one it holds, calls
    the primitive only while holding it and outside any other call, and ends
    with the mutex released. *)
Fixpoint well_locked (held inside : bool) (tr : list Event) : bool :=
  match tr with
  | [] => negb held && negb inside
  | EvLock :: tr' => negb held && well_locked true inside tr'
  | EvUnlock :: tr' => held && negb inside && well_locked false inside tr'
  | EvPoWCall _ _ _ _ :: tr' => held && negb inside && well_locked held true tr'
  | EvPoWReturn _ :: tr' => inside && well_locked held false tr'
  | _ :: tr' => well_locked held inside tr'
  end.

(** What holds of every goroutine of a reachable pool: what is still ahead
    of it keeps the lock discipline from where it stands, and it is inside
    the primitive only while holding the mutex. *)
Definition goroutine_ok (g : Goroutine) : Prop :=
  well_locked (holding (performed g)) (computing (performed g)) (pending g)
  = true /\
  (computing (performed g) = true -> holding (performed g) = true).

(** What holds of every reachable pool: a goroutine holding the mutex means
    the mutex is locked, and no two goroutines hold it. *)
Definition pool_ok (p : Pool) : Prop :=
  (forall i g, goroutines p !! i = Some g -> goroutine_ok g) /\
  (forall i g, goroutines p !! i = Some g ->
     holding (performed g) = true -> mu p = true) /\
  (forall i j gi gj,
     goroutines p !! i = Some gi -> goroutines p !! j = Some gj ->
     holding (performed gi) = true -> holding (performed gj) = true ->
     i = j).

(** The time the effects [tr] take. *)
Definition total_elapsed (timing : Event -> Z) (tr : list Event) : Z :=
  foldr (fun e acc => timing e + acc) 0 tr.

(** [wd'] is [wd] after the effects [tr]. *)
Definition extends (wd : World) (tr : list Event) (wd' : World) : Prop :=
  events wd' = events wd ++ tr /\
  now wd' = now wd + total_elapsed (elapsed wd) tr /\
  elapsed wd' = elapsed wd.

Definition is_log (e : Event) : Prop :=
  match e with
  | EvLog _ => True
  | _ => False
  end.

Definition is_PoWCall (e : Event) : bool :=
  match e with
  | EvPoWCall _ _ _ _ => true
  | _ => false
  end.

(** The primitive was called at some point of the trace. *)
Definition invokes_pow (tr : list Event) : bool := existsb is_PoWCall tr.

(** Effects that neither touch the mutex nor enter or leave the primitive. *)
Definition quiet (e : Event) : Prop :=
  e <> EvLock /\ e <> EvUnlock /\ is_PoWCall e = false /\
  forall res, e <> EvPoWReturn res.

(** A request is intercepted when it is a POST whose body reads without
    error and decodes to an envelope with the command [attachToTangle]. *)
Definition intercepted (E : Env) (r : Request) (command : AttachToTangleReq)
    : Prop :=
  Method r = MethodPost /\
  exists body,
    Body r = Some body /\
    faulty body = false /\
    json_Unmarshal E (unread body) = Some command /\
    Command command = attachToTangleCommand.

(* ===================================================================== *)
(** ** Telemetry and the paths of a run                                   *)
(* ===================================================================== *)

(** [txs] are the decodings of the raw transactions [raw], index by
    index. *)
Definition decodes (E : Env) (raw : list Trytes) (txs : list Transaction)
    : Prop :=
  Forall2 (fun t tx => AsTransactionObject E t = Some tx) raw txs.

(** Lines 182-191 for one transaction: a transfer of value is logged as an
    input leg when negative and as an output leg otherwise. *)
Definition carries_value (tx : Transaction) : bool := negb (Value tx =? 0).

Definition value_events (tx : Transaction) : list Event :=
  if carries_value tx then
    if Value tx <? 0 then [EvLog (LogInput (Address tx) (Value tx))]
    else [EvLog (LogOutput (Address tx) (Value tx))]
  else [].

Definition debit (tx : Transaction) : Z :=
  if Value tx <? 0 then Value tx else 0.

Definition total_debit (txs : list Transaction) : Z :=
  foldr (fun tx acc => debit tx + acc) 0 txs.

(** Lines 195-199: the bundle line and, for a bundle that moves value, the
    line with the total of its inputs. *)
Definition bundle_events (txs : list Transaction) : list Event :=
  match txs with
  | [] => []
  | tx0 :: _ =>
    EvLog (LogBundle (Bundle tx0)) ::
    (if existsb carries_value txs
     then [EvLog (LogInputTotal (wrap64 (total_debit txs)))]
     else [])
  end.

(** Everything logged between the reading of [start] and the call of
    [compute_and_respond], for a batch that decodes to [txs]: the value legs
    last transaction first, then the bundle lines. *)
Definition telemetry (txs : list Transaction) : list Event :=
  flat_map value_events (reverse txs) ++ bundle_events txs.

Definition pow_call (command : AttachToTangleReq) : Event :=
  EvPoWCall (TrunkTxHash command) (BranchTxHash command)
    (Trytes_req command) (uint64 (MWM command)).

Definition pow_result (E : Env) (command : AttachToTangleReq)
    : option (list Trytes) :=
  DoPoW E (TrunkTxHash command) (BranchTxHash command) (Trytes_req command)
    (uint64 (MWM command)).

(** The [took ...] line, given the time each effect takes. *)
Definition took_event (E : Env) (command : AttachToTangleReq)
    (timing : Event -> Z) (txsCount : Z) : Event :=
  EvLog (LogTook
           (millis (wrap64 (timing (pow_call command)
                            + timing (EvPoWReturn (pow_result E command)))))
           txsCount).

(** The effects of [compute_and_respond] up to the reading the duration is
    computed from. *)
Definition compute_events (E : Env) (command : AttachToTangleReq)
    (timing : Event -> Z) (txsCount : Z) : list Event :=
  [EvLog (LogDoingPoW txsCount); pow_call command;
   EvPoWReturn (pow_result E command); took_event E command timing txsCount].

(** The response of a run that entered [compute_and_respond] [since] ns
    after [start] was read. *)
Definition response (E : Env) (command : AttachToTangleReq)
    (timing : Event -> Z) (txsCount since : Z) (powed : list Trytes)
    : AttachToTangleRes :=
  {| Trytes_res := powed;
     Duration :=
       millis (wrap64 (since + total_elapsed timing
                                 (compute_events E command timing txsCount))) |}.

(** The four ways through [compute_and_respond], each with its outcome and
    its effects. *)
Inductive Computed (E : Env) (command : AttachToTangleReq)
    (timing : Event -> Z) (txsCount since : Z)
    : Outcome -> list Event -> Prop :=
| computed_pow_failed :
    pow_result E command = None ->
    Computed E command timing txsCount since
      (Rejected StatusBadRequest ErrExecutingProofOfWork)
      [EvLog (LogDoingPoW txsCount); pow_call command; EvPoWReturn None]
| computed_marshal_failed (powed : list Trytes) :
    pow_result E command = Some powed ->
    json_Marshal E (response E command timing txsCount since powed) = None ->
    Computed E command timing txsCount since
      (Rejected StatusInternalServerError ErrBuildingRes)
      (compute_events E command timing txsCount)
| computed_write_failed (powed : list Trytes) (resBytes : list byte) :
    pow_result E command = Some powed ->
    json_Marshal E (response E command timing txsCount since powed)
    = Some resBytes ->
    Write_ok E resBytes = false ->
    Computed E command timing txsCount since
      (Rejected StatusInternalServerError ErrBuildingRes)
      (compute_events E command timing txsCount ++
       [EvSetHeader contentType contentTypeJSON;
        EvSetHeader "access-control-allow-origin" "*";
        EvWrite resBytes false])
| computed_responded (powed : list Trytes) (resBytes : list byte) :
    pow_result E command = Some powed ->
    json_Marshal E (response E command timing txsCount since powed)
    = Some resBytes ->
    Write_ok E resBytes = true ->
    Computed E command timing txsCount since
      (Responded (response E command timing txsCount since powed))
      (compute_events E command timing txsCount ++
       [EvSetHeader contentType contentTypeJSON;
        EvSetHeader "access-control-allow-origin" "*";
        EvWrite resBytes true]).

(** The ways through [locked_section] for the request [r] and the envelope
    [command]. *)
Inductive Locked (E : Env) (interc : Interceptor) (r : Request)
    (command : AttachToTangleReq) (timing : Event -> Z)
    : Outcome -> list Event -> Prop :=
| locked_empty :
    Trytes_req command = [] ->
    Locked E interc r command timing
      (Forwarded r (Next interc r)) [EvForward r]
| locked_too_long :
    Trytes_req command <> [] ->
    Z.of_nat (length (Trytes_req command)) > maxTxInBundle E ->
    Locked E interc r command timing
      (Rejected StatusBadRequest
         (Wrapf ErrTxBundleLimitExceeded "max allowed is %d"
            (maxTxInBundle E)))
      [EvLog (LogNewRequest (RemoteAddr r));
       EvLog (LogCancel (Z.of_nat (length (Trytes_req command)))
                (maxTxInBundle E))]
| locked_malformed (before : list Trytes) (t : Trytes) (after : list Trytes)
    (txs : list Transaction) :
    Z.of_nat (length (Trytes_req command)) <= maxTxInBundle E ->
    Trytes_req command = before ++ t :: after ->
    AsTransactionObject E t = None ->
    decodes E after txs ->
    Locked E interc r command timing
      (Rejected StatusBadRequest ErrBuildingTx)
      (EvLog (LogNewRequest (RemoteAddr r)) ::
       flat_map value_events (reverse txs))
| locked_computed (txs : list Transaction) (out : Outcome)
    (tr : list Event) :
    Trytes_req command <> [] ->
    Z.of_nat (length (Trytes_req command)) <= maxTxInBundle E ->
    decodes E (Trytes_req command) txs ->
    Computed E command timing (Z.of_nat (length (Trytes_req command)))
      (total_elapsed timing (telemetry txs)) out tr ->
    Locked E interc r command timing out
      (EvLog (LogNewRequest (RemoteAddr r)) :: telemetry txs ++ tr).

(** The ways through [ServeHTTP]. *)
Inductive Path (E : Env) (interc : Interceptor) (r : Request)
    (timing : Event -> Z) : Outcome -> list Event -> Prop :=
| path_not_post :
    Method r <> MethodPost ->
    Path E interc r timing (Forwarded r (Next interc r)) [EvForward r]
| path_no_body :
    Method r = MethodPost ->
    Body r = None ->
    Path E interc r timing (Rejected StatusBadRequest ErrMissingBody) []
| path_read_error (body : Reader) :
    Method r = MethodPost ->
    Body r = Some body ->
    faulty body = true ->
    Path E interc r timing (Rejected StatusBadRequest ErrMissingBody) []
| path_undecodable (body : Reader) :
    Method r = MethodPost ->
    Body r = Some body ->
    faulty body = false ->
    json_Unmarshal E (unread body) = None ->
    Path E interc r timing
      (Forwarded (with_Body r (Some {| unread := []; faulty := false |}))
         (Next interc
            (with_Body r (Some {| unread := []; faulty := false |}))))
      [EvForward (with_Body r (Some {| unread := []; faulty := false |}))]
| path_other_command (body : Reader) (command : AttachToTangleReq) :
    Method r = MethodPost ->
    Body r = Some body ->
    faulty body = false ->
    json_Unmarshal E (unread body) = Some command ->
    Command command <> attachToTangleCommand ->
    Path E interc r timing
      (Forwarded (with_Body r (Some (NewReader (unread body))))
         (Next interc (with_Body r (Some (NewReader (unread body))))))
      [EvForward (with_Body r (Some (NewReader (unread body))))]
| path_difficulty (command : AttachToTangleReq) :
    intercepted E r command ->
    MWM command < 0 \/ maxMWM E < MWM command ->
    Path E interc r timing
      (Rejected StatusBadRequest
         (Wrapf ErrInvalidMWM "use mwm between 1-%d" (maxMWM E))) []
| path_locked (body : Reader) (command : AttachToTangleReq) (out : Outcome)
    (tr : list Event) :
    intercepted E r command ->
    Body r = Some body ->
    0 <= MWM command <= maxMWM E ->
    Locked E interc (with_Body r (Some (NewReader (unread body)))) command
      timing out tr ->
    Path E interc r timing out (EvLock :: tr ++ [EvUnlock]).

(** How often an effect of a given kind occurs in a trace. *)
Definition occurrences (kind : Event -> bool) (tr : list Event) : nat :=
  length (List.filter kind tr).



Definition is_Forward (e : Event) : bool :=
  match e with EvForward _ => true | _ => false end.


(** A pool in which every goroutine has returned and the mutex is free. *)
Definition finished (p : Pool) : Prop :=
  mu p = false /\
  forall i g, goroutines p !! i = Some g -> pending g = [].

(** The effects the goroutines of a pool still have ahead of them. *)
Definition backlog (p : Pool) : nat :=
  foldr (fun g acc => (length (pending g) + acc)%nat) 0%nat (goroutines p).

(* ===================================================================== *)
(** ** Start-up                                                           *)
(* ===================================================================== *)

(** [setup] reads its arguments through the controller of the host.  The
    controller is modelled as the code sees it: one list of arguments for
    every successful [c.Next()], holding the values [c.NextArg()] then
    yields.  [Atoi] is [strconv.Atoi] ([None] for an error) and
    [fastest] the name [pow.GetFastestProofOfWorkImpl] returns. *)
Record Host := {
  Atoi : string -> option Z;
  fastest : string
}.

Inductive SetupLog :=
| LogDefaultMWM (v : Z)
| LogDefaultTxs (v : Z)
| LogConfigured (txs mwm : Z)
| LogPoWImpl (name : string).

Definition defaultMaxMWM : Z := 14.
Definition defaultMaxTxsInBundle : Z := 20.

(** The package variables [setup] writes, the number of middlewares it has
    registered with the host, and what it has logged. *)
Record Package := {
  powFn : option string;
  var_maxTxInBundle : Z;
  var_maxMWM : Z;
  middlewares : nat;
  setup_log : list SetupLog
}.

(** The package as its declarations initialise it (lines 54-56). *)
Definition initial_package : Package :=
  {| powFn := None; var_maxTxInBundle := 50; var_maxMWM := 14;
     middlewares := 0; setup_log := [] |}.

(** The body of the inner loop, lines 65-80, for argument number [i]. *)
Definition setup_arg (H : Host) (i : nat) (val : string) (pkg : Package)
    : Package :=
  match i with
  | 0%nat =>
    match Atoi H val with
    | Some v =>
      {| powFn := powFn pkg; var_maxTxInBundle := var_maxTxInBundle pkg;
         var_maxMWM := v; middlewares := middlewares pkg;
         setup_log := setup_log pkg |}
    | None =>
      {| powFn := powFn pkg; var_maxTxInBundle := var_maxTxInBundle pkg;
         var_maxMWM := defaultMaxMWM; middlewares := middlewares pkg;
         setup_log := setup_log pkg ++ [LogDefaultMWM defaultMaxMWM] |}
    end
  | 1%nat =>
    match Atoi H val with
    | Some v =>
      {| powFn := powFn pkg; var_maxTxInBundle := v;
         var_maxMWM := var_maxMWM pkg; middlewares := middlewares pkg;
         setup_log := setup_log pkg |}
    | None =>
      {| powFn := powFn pkg; var_maxTxInBundle := defaultMaxTxsInBundle;
         var_maxMWM := var_maxMWM pkg; middlewares := middlewares pkg;
         setup_log := setup_log pkg ++ [LogDefaultTxs defaultMaxTxsInBundle] |}
    end
  | _ => pkg
  end.

(** [for ; c.NextArg(); i++]: the counter [i] is declared outside both
    loops and so runs on from one line to the next.  It counts arguments
    read and is kept as a natural number. *)
Fixpoint setup_args (H : Host) (args : list string) (i : nat)
    (pkg : Package) : nat * Package :=
  match args with
  | [] => (i, pkg)
  | val :: rest => setup_args H rest (S i) (setup_arg H i val pkg)
  end.

Inductive SetupResult :=
| SetupOk
| ArgErr.

(** [for c.Next() { ...; if i != 2 { return c.ArgErr() } }]. *)
Fixpoint setup_lines (H : Host) (c : list (list string)) (i : nat)
    (pkg : Package) : SetupResult * Package :=
  match c with
  | [] => (SetupOk, pkg)
  | args :: rest =>
    let '(i', pkg') := setup_args H args i pkg in
    if negb (i' =? 2)%nat then (ArgErr, pkg')
    else setup_lines H rest i' pkg'
  end.

(** [func setup(c *caddy.Controller) error]. *)
Definition setup (H : Host) (c : list (list string)) (pkg : Package)
    : SetupResult * Package :=
  let pkg0 :=
    {| powFn := Some (fastest H);
       var_maxTxInBundle := var_maxTxInBundle pkg;
       var_maxMWM := var_maxMWM pkg; middlewares := middlewares pkg;
       setup_log := setup_log pkg |} in
  match setup_lines H c 0 pkg0 with
  | (ArgErr, pkg1) => (ArgErr, pkg1)
  | (SetupOk, pkg1) =>
    (SetupOk,
     {| powFn := powFn pkg1; var_maxTxInBundle := var_maxTxInBundle pkg1;
        var_maxMWM := var_maxMWM pkg1; middlewares := S (middlewares pkg1);
        setup_log :=
          setup_log pkg1 ++
          [LogConfigured (var_maxTxInBundle pkg1) (var_maxMWM pkg1);
           LogPoWImpl (fastest H)] |})
  end.

(** The handler reads the two limits from the package variables. *)
Definition with_limits (pkg : Package) (E : Env) : Env :=
  {| json_Unmarshal := json_Unmarshal E;
     AsTransactionObject := AsTransactionObject E;
     DoPoW := DoPoW E;
     json_Marshal := json_Marshal E;
     Write_ok := Write_ok E;
     maxTxInBundle := var_maxTxInBundle pkg;
     maxMWM := var_maxMWM pkg |}.

(** A host whose [Atoi] knows finitely many numerals. *)
Definition table_host (numerals : list (string * Z)) : Host :=
  {| Atoi := fun s =>
       snd <$> find (fun entry => String.eqb s (fst entry)) numerals;
     fastest := "PoWGo" |}.


(* ===================================================================== *)
(** ** Fixtures                                                           *)
(* ===================================================================== *)

(** Concrete collaborators for the examples: a JSON codec that knows the
    rendering of finitely many envelopes, a transaction decoder that knows
    the all-nines transaction, and a primitive that either hands the batch
    back or fails. *)
Module Fixture.

Definition bytes (s : string) : list byte := String.list_byte_of_string s.

Definition quote : string := String (Ascii.ascii_of_nat 34) EmptyString.

Definition jstring (s : string) : string := quote +:+ s +:+ quote.

Fixpoint jstrings (l : list string) : string :=
  match l with
  | [] => ""
  | [s] => jstring s
  | s :: l' => jstring s +:+ "," +:+ jstrings l'
  end.

Definition render_request (c : AttachToTangleReq) : string :=
  "{" +:+ jstring "command" +:+ ":" +:+ jstring (Command c) +:+ ","
      +:+ jstring "trunkTransaction" +:+ ":" +:+ jstring (TrunkTxHash c)
      +:+ "," +:+ jstring "branchTransaction" +:+ ":"
      +:+ jstring (BranchTxHash c) +:+ ","
      +:+ jstring "minWeightMagnitude" +:+ ":" +:+ pretty (MWM c) +:+ ","
      +:+ jstring "trytes" +:+ ":[" +:+ jstrings (Trytes_req c) +:+ "]}".

Definition render_response (res : AttachToTangleRes) : string :=
  "{" +:+ jstring "trytes" +:+ ":[" +:+ jstrings (Trytes_res res) +:+ "],"
      +:+ jstring "duration" +:+ ":" +:+ pretty (Duration res) +:+ "}".

Definition Unmarshal (known : list AttachToTangleReq)
    (contents : list byte) : option AttachToTangleReq :=
  find (fun c => String.eqb (String.string_of_list_byte contents)
                            (render_request c)) known.

Fixpoint nines (n : nat) : string :=
  match n with
  | O => ""
  | S n' => "9" +:+ nines n'
  end.

Definition decode_nines (t : Trytes) : option Transaction :=
  if String.eqb t (nines 2673)
  then Some {| Address := nines 81; Value := 0; Bundle := nines 81 |}
  else None.

Definition pow_stub (works : bool) (trunk branch : Trytes)
    (trytes : list Trytes) (mwm : Z) : option (list Trytes) :=
  if works then Some trytes else None.

Definition env (known : list AttachToTangleReq) (works : bool)
    (limitMWM limitTxs : Z) : Env :=
  {| json_Unmarshal := Unmarshal known;
     AsTransactionObject := decode_nines;
     DoPoW := pow_stub works;
     json_Marshal := fun res => Some (bytes (render_response res));
     Write_ok := fun _ => true;
     maxTxInBundle := limitTxs;
     maxMWM := limitMWM |}.

Definition upstream : Interceptor :=
  {| Next := fun _ => (StatusOK, None) |}.

Definition post (body : string) : Request :=
  {| Method := "POST";
     Body := Some {| unread := bytes body; faulty := false |};
     RemoteAddr := "203.0.113.7:51820" |}.

Definition attach (mwm : Z) (trytes : list Trytes) : AttachToTangleReq :=
  {| Command := "attachToTangle";
     TrunkTxHash := nines 81;
     BranchTxHash := nines 81;
     MWM := mwm;
     Trytes_req := trytes |}.

(** Every effect is instantaneous except waiting for the lock. *)
Definition lock_wait (ns : Z) (e : Event) : Z :=
  match e with
  | EvLock => ns
  | _ => 0
  end.

End Fixture.

(* ===================================================================== *)
(** ** Arithmetic of the clock                                            *)
(* ===================================================================== *)

Lemma wrap64_mod (x y : Z) :
  x mod 2 ^ 64 = y mod 2 ^ 64 -> wrap64 x = wrap64 y.
Proof.
  intros H. unfold wrap64. f_equal.
  rewrite <- (Zplus_mod_idemp_l x), <- (Zplus_mod_idemp_l y), H. reflexivity.
Qed.

Lemma wrap64_cong (x : Z) : wrap64 x mod 2 ^ 64 = x mod 2 ^ 64.
Proof.
  unfold wrap64.
  rewrite Zminus_mod, Zmod_mod, <- Zminus_mod.
  f_equal. lia.
Qed.

(** The difference of two clock readings is the wrapped difference of the
    clocks. *)
Lemma sub64_UnixNano (a b : World) :
  sub64 (UnixNano a) (UnixNano b) = wrap64 (now a - now b).
Proof.
  unfold sub64, UnixNano. apply wrap64_mod.
  rewrite Zminus_mod, !wrap64_cong, <- Zminus_mod. reflexivity.
Qed.

(* ===================================================================== *)
(** ** Effects and traces                                                 *)
(* ===================================================================== *)

Lemma total_elapsed_app (timing : Event -> Z) (tr1 tr2 : list Event) :
  total_elapsed timing (tr1 ++ tr2)
  = total_elapsed timing tr1 + total_elapsed timing tr2.
Proof.
  induction tr1 as [|e tr1 IH]; simpl; [reflexivity|]. rewrite IH. lia.
Qed.

Lemma extends_refl (wd : World) : extends wd [] wd.
Proof.
  unfold extends. simpl. rewrite app_nil_r. repeat split; lia.
Qed.

Lemma extends_emit (e : Event) (wd : World) : extends wd [e] (emit e wd).
Proof.
  unfold extends, emit. simpl. repeat split; lia.
Qed.

Lemma extends_trans (wd1 wd2 wd3 : World) (tr1 tr2 : list Event) :
  extends wd1 tr1 wd2 -> extends wd2 tr2 wd3 -> extends wd1 (tr1 ++ tr2) wd3.
Proof.
  intros (He1 & Hn1 & Ht1) (He2 & Hn2 & Ht2). unfold extends.
  rewrite He2, He1, Hn2, Hn1, Ht2, Ht1, total_elapsed_app, app_assoc.
  repeat split; lia.
Qed.

Lemma extends_snoc (wd1 wd2 : World) (tr : list Event) (e : Event) :
  extends wd1 tr wd2 -> extends wd1 (tr ++ [e]) (emit e wd2).
Proof.
  intros H. eapply extends_trans; [exact H | apply extends_emit].
Qed.

Lemma extends_trace (wd wd' : World) (tr : list Event) :
  extends wd tr wd' -> drop (length (events wd)) (events wd') = tr.
Proof.
  intros (He & _ & _). rewrite He. apply drop_app_length.
Qed.

(* ===================================================================== *)
(** ** The decoding loop                                                  *)
(* ===================================================================== *)

Lemma decode_step_inv (E : Env) (txTrytes : list Trytes) (i : nat)
    (ds ds' : DecodeState) (wd wd' : World) :
  decode_step E txTrytes i ds wd = (LoopDone ds', wd') ->
  exists t tx,
    txTrytes !! i = Some t /\
    AsTransactionObject E t = Some tx /\
    (i < length (transactions ds))%nat /\
    transactions ds' = <[i := tx]> (transactions ds).
Proof.
  unfold decode_step. intros H.
  destruct (txTrytes !! i) as [t|]; [|discriminate].
  destruct (AsTransactionObject E t) as [tx|] eqn:Htx; [|discriminate].
  exists t, tx.
  destruct (negb (Value tx =? 0)); [destruct (Value tx <? 0)|]; simpl in H;
    case_bool_decide; try discriminate; inversion H; subst; simpl;
    repeat split; auto.
Qed.

Lemma decode_step_logs (E : Env) (txTrytes : list Trytes) (i : nat)
    (ds : DecodeState) (wd wd' : World) (res : LoopResult) :
  decode_step E txTrytes i ds wd = (res, wd') ->
  exists tr, extends wd tr wd' /\ Forall is_log tr.
Proof.
  unfold decode_step. intros H.
  destruct (txTrytes !! i) as [t|];
    [|inversion H; subst; exists []; split; [apply extends_refl | constructor]].
  destruct (AsTransactionObject E t) as [tx|];
    [|inversion H; subst; exists []; split; [apply extends_refl | constructor]].
  destruct (negb (Value tx =? 0)); [destruct (Value tx <? 0)|]; simpl in H;
    case_bool_decide; inversion H; subst;
    first [ exists []; split; [apply extends_refl | constructor]
          | eexists [_]; split;
            [apply extends_emit | repeat constructor] ].
Qed.

Lemma decode_step_stops (E : Env) (txTrytes : list Trytes) (i : nat)
    (ds : DecodeState) (wd : World) :
  (i < length txTrytes)%nat ->
  (i < length (transactions ds))%nat ->
  match fst (decode_step E txTrytes i ds wd) with
  | LoopDone _ => True
  | LoopFailed =>
      exists t, txTrytes !! i = Some t /\ AsTransactionObject E t = None
  | LoopPanicked => False
  end.
Proof.
  intros Hi Hj. unfold decode_step.
  destruct (lookup_lt_is_Some_2 txTrytes i Hi) as [t Ht]. rewrite Ht.
  destruct (AsTransactionObject E t) as [tx|] eqn:Htx; simpl; [|eauto].
  destruct (negb (Value tx =? 0)); [destruct (Value tx <? 0)|]; simpl;
    case_bool_decide; simpl; auto.
Qed.

Lemma decode_loop_logs (E : Env) (txTrytes : list Trytes) (k : nat) :
  forall (ds : DecodeState) (wd wd' : World) (res : LoopResult),
    decode_loop E txTrytes k ds wd = (res, wd') ->
    exists tr, extends wd tr wd' /\ Forall is_log tr.
Proof.
  induction k as [|i IH]; intros ds wd wd' res H; simpl in H.
  - inversion H; subst. exists []. split; [apply extends_refl | constructor].
  - destruct (decode_step E txTrytes i ds wd) as [r1 wd1] eqn:Hstep.
    destruct (decode_step_logs _ _ _ _ _ _ _ Hstep) as (tr1 & Hx1 & Hl1).
    destruct r1 as [ds1| |].
    + destruct (IH _ _ _ _ H) as (tr2 & Hx2 & Hl2).
      exists (tr1 ++ tr2). split; [eapply extends_trans; eauto|].
      apply Forall_app; auto.
    + inversion H; subst. eauto.
    + inversion H; subst. eauto.
Qed.

(** When the loop runs to its end from [k], every slot below [k] holds the
    decoding of the raw transaction at the same index, and the slots from
    [k] on are untouched. *)
Lemma decode_loop_filled (E : Env) (txTrytes : list Trytes) (k : nat) :
  forall (ds ds' : DecodeState) (wd wd' : World),
    decode_loop E txTrytes k ds wd = (LoopDone ds', wd') ->
    length (transactions ds') = length (transactions ds) /\
    (forall i, (i < k)%nat ->
       exists t tx,
         txTrytes !! i = Some t /\
         AsTransactionObject E t = Some tx /\
         transactions ds' !! i = Some tx) /\
    (forall i, (k <= i)%nat -> transactions ds' !! i = transactions ds !! i).
Proof.
  induction k as [|j IH]; intros ds ds' wd wd' H; simpl in H.
  - inversion H; subst.
    split; [reflexivity|]. split; [intros i Hi; lia | auto].
  - destruct (decode_step E txTrytes j ds wd) as [r1 wd1] eqn:Hstep.
    destruct r1 as [ds1| |]; try discriminate.
    destruct (decode_step_inv _ _ _ _ _ _ _ Hstep) as (t & tx & Ht & Htx & Hj & Hins).
    destruct (IH _ _ _ _ H) as (Hlen & Hlow & Hhigh).
    rewrite Hins in Hlen, Hhigh. rewrite length_insert in Hlen.
    split; [exact Hlen|]. split.
    + intros i Hi. destruct (decide (i = j)) as [->|Hne].
      * exists t, tx. repeat split; auto.
        rewrite Hhigh by lia. apply list_lookup_insert_eq. exact Hj.
      * apply Hlow. lia.
    + intros i Hi. rewrite Hhigh by lia.
      apply list_lookup_insert_ne. lia.
Qed.

Lemma decode_loop_never_panics (E : Env) (txTrytes : list Trytes) (k : nat) :
  forall (ds : DecodeState) (wd : World),
    (k <= length txTrytes)%nat ->
    (k <= length (transactions ds))%nat ->
    fst (decode_loop E txTrytes k ds wd) <> LoopPanicked.
Proof.
  induction k as [|j IH]; intros ds wd Hk Hn; simpl; [discriminate|].
  pose proof (decode_step_stops E txTrytes j ds wd ltac:(lia) ltac:(lia)) as Hs.
  destruct (decode_step E txTrytes j ds wd) as [r1 wd1] eqn:Hstep.
  simpl in Hs. destruct r1 as [ds1| |]; simpl; [|discriminate|contradiction].
  destruct (decode_step_inv _ _ _ _ _ _ _ Hstep) as (t & tx & _ & _ & _ & Hins).
  apply IH; [lia|]. rewrite Hins, length_insert. lia.
Qed.

(** All-or-nothing: one raw transaction below [k] that does not decode
    makes the loop stop with the decoding error. *)
Lemma decode_loop_fails (E : Env) (txTrytes : list Trytes) (k : nat)
    (ds : DecodeState) (wd : World) (i : nat) (t : Trytes) :
  (k <= length txTrytes)%nat ->
  (k <= length (transactions ds))%nat ->
  (i < k)%nat ->
  txTrytes !! i = Some t ->
  AsTransactionObject E t = None ->
  fst (decode_loop E txTrytes k ds wd) = LoopFailed.
Proof.
  intros Hk Hn Hi Ht Hbad.
  pose proof (decode_loop_never_panics E txTrytes k ds wd Hk Hn) as Hnp.
  destruct (decode_loop E txTrytes k ds wd) as [res wd'] eqn:Hloop.
  simpl in *. destruct res as [ds'| |]; [|reflexivity|contradiction].
  destruct (decode_loop_filled _ _ _ _ _ _ _ Hloop) as (_ & Hlow & _).
  destruct (Hlow i Hi) as (t' & tx & Ht' & Htx & _). congruence.
Qed.

(* ===================================================================== *)
(** ** The paths of the handler                                           *)
(* ===================================================================== *)

Lemma ServeHTTP_intercepted (E : Env) (interc : Interceptor) (r : Request)
    (body : Reader) (command : AttachToTangleReq) (wd : World) :
  Method r = MethodPost ->
  Body r = Some body ->
  faulty body = false ->
  json_Unmarshal E (unread body) = Some command ->
  Command command = attachToTangleCommand ->
  ServeHTTP E interc r wd =
    if (MWM command >? maxMWM E) || (MWM command <? 0) then
      (Rejected StatusBadRequest
         (Wrapf ErrInvalidMWM "use mwm between 1-%d" (maxMWM E)), wd)
    else
      let '(out, wd2) :=
        locked_section E interc
          (with_Body r (Some (NewReader (unread body)))) command
          (emit EvLock wd) in
      (out, emit EvUnlock wd2).
Proof.
  intros Hm Hb Hf Hj Hc. unfold ServeHTTP.
  rewrite Hm, Hb. simpl. rewrite Hf, Hj, Hc. reflexivity.
Qed.

Lemma extends_cons (wd wd' : World) (e : Event) (tr : list Event) :
  extends (emit e wd) tr wd' -> extends wd (e :: tr) wd'.
Proof.
  intros H. exact (extends_trans _ _ _ [e] tr (extends_emit e wd) H).
Qed.

(** Closes [extends wd tr wd'] when [wd'] is [wd] after a fixed number of
    [emit]s. *)
Ltac solve_extends :=
  unfold logPrintf, forward; cbn [app];
  repeat apply extends_cons; apply extends_refl.

Lemma compute_and_respond_trace (E : Env) (command : AttachToTangleReq)
    (start txsCount : Z) (wd wd' : World) (out : Outcome) :
  compute_and_respond E command start txsCount wd = (out, wd') ->
  exists call tail,
    call = EvPoWCall (TrunkTxHash command) (BranchTxHash command)
             (Trytes_req command) (uint64 (MWM command)) /\
    extends wd
      ([EvLog (LogDoingPoW txsCount); call;
        EvPoWReturn (DoPoW E (TrunkTxHash command) (BranchTxHash command)
                       (Trytes_req command) (uint64 (MWM command)))] ++ tail)
      wd' /\
    Forall (fun e => e <> EvLock /\ e <> EvUnlock /\ is_PoWCall e = false
                     /\ forall res, e <> EvPoWReturn res) tail.
Proof.
  unfold compute_and_respond. intros H.
  set (call := EvPoWCall _ _ _ _) in *.
  set (powed := DoPoW E _ _ _ _) in *.
  exists call.
  destruct powed as [powedBundle|].
  - destruct (json_Marshal E _) as [resBytes|].
    + eexists [_; _; _; EvWrite resBytes (Write_ok E resBytes)].
      split; [reflexivity|]. split.
      * destruct (Write_ok E resBytes); inversion H; subst; solve_extends.
      * repeat constructor; discriminate.
    + inversion H; subst. eexists [_]. split; [reflexivity|]. split.
      * solve_extends.
      * repeat constructor; discriminate.
  - inversion H; subst. exists []. split; [reflexivity|]. split.
    + solve_extends.
    + constructor.
Qed.

Lemma compute_and_respond_failure (E : Env) (command : AttachToTangleReq)
    (start txsCount : Z) (wd : World) :
  DoPoW E (TrunkTxHash command) (BranchTxHash command) (Trytes_req command)
    (uint64 (MWM command)) = None ->
  fst (compute_and_respond E command start txsCount wd)
  = Rejected StatusBadRequest ErrExecutingProofOfWork.
Proof.
  intros H. unfold compute_and_respond. rewrite H. reflexivity.
Qed.


Lemma locked_section_paths (E : Env) (interc : Interceptor) (r : Request)
    (command : AttachToTangleReq) (wd wd' : World) (out : Outcome) :
  locked_section E interc r command wd = (out, wd') ->
  let txTrytes := Trytes_req command in
  let n := Z.of_nat (length txTrytes) in
  let wd1 := logPrintf (LogNewRequest (RemoteAddr r)) wd in
  (txTrytes = [] /\
   out = Forwarded r (Next interc r) /\
   wd' = emit (EvForward r) wd)
  \/
  (txTrytes <> [] /\ n > maxTxInBundle E /\
   out = Rejected StatusBadRequest
           (Wrapf ErrTxBundleLimitExceeded "max allowed is %d"
              (maxTxInBundle E)) /\
   wd' = logPrintf (LogCancel n (maxTxInBundle E)) wd1)
  \/
  (txTrytes <> [] /\ n <= maxTxInBundle E /\
   out = Rejected StatusBadRequest ErrBuildingTx /\
   exists logs, extends wd1 logs wd' /\ Forall is_log logs)
  \/
  (txTrytes <> [] /\ n <= maxTxInBundle E /\
   (forall t, t ∈ txTrytes -> AsTransactionObject E t <> None) /\
   exists logs wd4,
     extends wd1 logs wd4 /\ Forall is_log logs /\
     compute_and_respond E command (UnixNano wd1) n wd4 = (out, wd')).
Proof.
  intros H txTrytes n wd1. unfold locked_section in H.
  fold txTrytes in H. fold wd1 in H.
  rewrite length_replicate in H. fold n in H.
  destruct (length txTrytes =? 0)%nat eqn:Hlen.
  { left. apply Nat.eqb_eq in Hlen. apply nil_length_inv in Hlen.
    unfold forward in H. inversion H; subst. auto. }
  right.
  assert (Hne : txTrytes <> []).
  { intros Hnil. rewrite Hnil in Hlen. discriminate. }
  destruct (n >? maxTxInBundle E) eqn:Hmax.
  { left. apply Z.gtb_lt in Hmax. inversion H; subst.
    repeat split; auto. lia. }
  right.
  assert (Hle : n <= maxTxInBundle E).
  { destruct (Z.gtb_spec n (maxTxInBundle E)); [discriminate | lia]. }
  set (ds0 := {| isValueBundle := false; inputValue := 0;
                 transactions := replicate (length txTrytes) zeroTransaction |})
    in *.
  pose proof (decode_loop_never_panics E txTrytes (length txTrytes) ds0 wd1
                ltac:(lia) ltac:(simpl; rewrite length_replicate; lia)) as Hnp.
  destruct (decode_loop E txTrytes (length txTrytes) ds0 wd1)
    as [res wd2] eqn:Hloop.
  destruct (decode_loop_logs _ _ _ _ _ _ _ Hloop) as (logs & Hx & Hlogs).
  simpl in Hnp. destruct res as [ds| |]; [|clear Hnp|contradiction].
  - right.
    destruct (decode_loop_filled _ _ _ _ _ _ _ Hloop) as (Hl & Hlow & _).
    simpl in Hl. rewrite length_replicate in Hl.
    assert (Hpos : (0 < length txTrytes)%nat).
    { destruct txTrytes; [contradiction | simpl; lia]. }
    destruct (Hlow 0%nat Hpos) as (t0 & tx0 & _ & _ & Htx0).
    rewrite Htx0 in H.
    split; [exact Hne|]. split; [exact Hle|]. split.
    + intros t Ht Hbad. apply list_elem_of_lookup in Ht as [i Hi].
      apply lookup_lt_Some in Hi as Hlt.
      destruct (Hlow i Hlt) as (t' & tx & Ht' & Htx & _).
      congruence.
    + destruct (isValueBundle ds).
      * eexists (logs ++ [EvLog (LogBundle (Bundle tx0));
                          EvLog (LogInputTotal (inputValue ds))]), _.
        split; [|split; [|exact H]].
        -- eapply extends_trans; [exact Hx | solve_extends].
        -- apply Forall_app. split; [exact Hlogs | repeat constructor].
      * eexists (logs ++ [EvLog (LogBundle (Bundle tx0))]), _.
        split; [|split; [|exact H]].
        -- eapply extends_trans; [exact Hx | solve_extends].
        -- apply Forall_app. split; [exact Hlogs | repeat constructor].
  - left. inversion H; subst. repeat split; eauto.
Qed.

Lemma compute_and_respond_outcomes (E : Env) (command : AttachToTangleReq)
    (start txsCount : Z) (wd : World) :
  let out := fst (compute_and_respond E command start txsCount wd) in
  out = Rejected StatusBadRequest ErrExecutingProofOfWork \/
  out = Rejected StatusInternalServerError ErrBuildingRes \/
  exists res, out = Responded res.
Proof.
  unfold compute_and_respond.
  destruct (DoPoW E _ _ _ _) as [powedBundle|]; simpl; [|auto].
  destruct (json_Marshal E _) as [resBytes|]; simpl; [|auto].
  destruct (Write_ok E resBytes); simpl; eauto.
Qed.

Ltac solve_quiet :=
  repeat first [ constructor | discriminate | reflexivity
               | intros ?; discriminate ].

Lemma is_log_quiet (e : Event) : is_log e -> quiet e.
Proof.
  destruct e; simpl; try contradiction. intros _. solve_quiet.
Qed.

Lemma Forall_log_quiet (tr : list Event) : Forall is_log tr -> Forall quiet tr.
Proof.
  intros H. eapply Forall_impl; [exact H | exact is_log_quiet].
Qed.

Lemma quiet_no_pow (tr : list Event) :
  Forall quiet tr -> invokes_pow tr = false.
Proof.
  induction 1 as [|e tr (_ & _ & Hc & _) _ IH]; simpl; [reflexivity|].
  rewrite Hc. exact IH.
Qed.

Lemma invokes_pow_app (tr1 tr2 : list Event) :
  invokes_pow (tr1 ++ tr2) = invokes_pow tr1 || invokes_pow tr2.
Proof. apply existsb_app. Qed.

Lemma quiet_well_locked (held inside : bool) (tr rest : list Event) :
  Forall quiet tr ->
  well_locked held inside (tr ++ rest) = well_locked held inside rest.
Proof.
  induction 1 as [|e tr (Hl & Hu & Hc & Hr) _ IH]; simpl; [reflexivity|].
  destruct e; try contradiction; try discriminate; try exact IH.
  exfalso. eapply Hr. reflexivity.
Qed.

Lemma quiet_fold_lock (held : bool) (tr : list Event) :
  Forall quiet tr -> fold_left lock_after tr held = held.
Proof.
  intros H. revert held.
  induction H as [|e tr (Hl & Hu & _) _ IH]; intros held; simpl;
    [reflexivity|].
  rewrite IH. destruct e; try contradiction; reflexivity.
Qed.

(** The traces of the locked section: quiet throughout, or quiet around one
    call of the primitive on the batch of the envelope, which is then not
    empty. *)
Lemma locked_section_trace (E : Env) (interc : Interceptor) (r : Request)
    (command : AttachToTangleReq) (wd wd' : World) (out : Outcome) :
  locked_section E interc r command wd = (out, wd') ->
  exists tr,
    extends wd tr wd' /\
    ((Forall quiet tr /\
      forall res, out <> Responded res) \/
     (exists q1 q2 start n wd4,
        tr = q1 ++ [EvPoWCall (TrunkTxHash command) (BranchTxHash command)
                      (Trytes_req command) (uint64 (MWM command));
                    EvPoWReturn (DoPoW E (TrunkTxHash command)
                                   (BranchTxHash command)
                                   (Trytes_req command)
                                   (uint64 (MWM command)))] ++ q2 /\
        Forall quiet q1 /\ Forall quiet q2 /\
        Trytes_req command <> [] /\
        compute_and_respond E command start n wd4 = (out, wd'))).
Proof.
  intros H.
  destruct (locked_section_paths _ _ _ _ _ _ _ H)
    as [(_ & -> & ->) | [(_ & _ & -> & ->)
        | [(_ & _ & -> & logs & Hx & Hlogs)
        | (Hne & _ & _ & logs & wd4 & Hx & Hlogs & Hc)]]].
  - exists [EvForward r]. split; [solve_extends|]. left.
    split; [solve_quiet | discriminate].
  - eexists [_; _]. split; [solve_extends|]. left.
    split; [solve_quiet | discriminate].
  - eexists (_ :: logs). split.
    + apply extends_cons. exact Hx.
    + left. split; [|discriminate].
      constructor; [solve_quiet | apply Forall_log_quiet; exact Hlogs].
  - destruct (compute_and_respond_trace _ _ _ _ _ _ _ Hc)
      as (call & tail & -> & Hx2 & Htail).
    eexists. split.
    + apply extends_cons. eapply extends_trans; [exact Hx | exact Hx2].
    + right.
      eexists (EvLog (LogNewRequest (RemoteAddr r)) :: logs ++
                [EvLog (LogDoingPoW (Z.of_nat (length (Trytes_req command))))]),
        tail, _, _, wd4.
      split; [simpl; rewrite <- app_assoc; reflexivity|].
      split.
      { constructor; [solve_quiet|].
        apply Forall_app. split; [apply Forall_log_quiet; exact Hlogs|].
        solve_quiet. }
      split; [exact Htail|]. split; [exact Hne | exact Hc].
Qed.

Lemma ServeHTTP_cases (E : Env) (interc : Interceptor) (r : Request)
    (wd : World) :
  (exists r', ServeHTTP E interc r wd = forward interc r' wd) \/
  ServeHTTP E interc r wd = (Rejected StatusBadRequest ErrMissingBody, wd) \/
  (exists command, intercepted E r command).
Proof.
  unfold ServeHTTP, intercepted.
  destruct (String.eqb (Method r) MethodPost) eqn:Hm; simpl; [|eauto].
  apply String.eqb_eq in Hm.
  destruct (Body r) as [body|] eqn:Hb; [|auto].
  destruct (faulty body) eqn:Hf; [auto|].
  destruct (json_Unmarshal E (unread body)) as [command|] eqn:Hj; [|eauto].
  destruct (String.eqb (Command command) attachToTangleCommand) eqn:Hc;
    simpl; [|eauto].
  apply String.eqb_eq in Hc.
  right. right. exists command. split; [exact Hm|]. exists body. auto.
Qed.

Lemma ServeHTTP_of_intercepted (E : Env) (interc : Interceptor) (r : Request)
    (command : AttachToTangleReq) (wd : World) :
  intercepted E r command ->
  exists body,
    Body r = Some body /\
    ServeHTTP E interc r wd =
      if (MWM command >? maxMWM E) || (MWM command <? 0) then
        (Rejected StatusBadRequest
           (Wrapf ErrInvalidMWM "use mwm between 1-%d" (maxMWM E)), wd)
      else
        let '(out, wd2) :=
          locked_section E interc
            (with_Body r (Some (NewReader (unread body)))) command
            (emit EvLock wd) in
        (out, emit EvUnlock wd2).
Proof.
  intros (Hm & body & Hb & Hf & Hj & Hc). exists body. split; [exact Hb|].
  apply ServeHTTP_intercepted; assumption.
Qed.

Lemma difficulty_in_range (E : Env) (command : AttachToTangleReq) :
  (MWM command >? maxMWM E) || (MWM command <? 0) = false <->
  0 <= MWM command <= maxMWM E.
Proof.
  destruct (Z.gtb_spec (MWM command) (maxMWM E));
    destruct (Z.ltb_spec (MWM command) 0); simpl;
    split; intros; try lia; try discriminate; reflexivity.
Qed.

Lemma difficulty_out_of_range (E : Env) (command : AttachToTangleReq) :
  (MWM command >? maxMWM E) || (MWM command <? 0) = true <->
  MWM command < 0 \/ maxMWM E < MWM command.
Proof.
  destruct (Z.gtb_spec (MWM command) (maxMWM E));
    destruct (Z.ltb_spec (MWM command) 0); simpl;
    split; intros; try lia; try discriminate; reflexivity.
Qed.

Lemma trace_of_extends (E : Env) (interc : Interceptor) (r : Request)
    (wd : World) (tr : list Event) :
  extends wd tr (snd (ServeHTTP E interc r wd)) ->
  trace_of E interc (r, wd) = tr.
Proof. intros H. unfold trace_of. simpl. exact (extends_trace _ _ _ H). Qed.

(** Every run of the handler either never touches the mutex and is quiet,
    or is [mu.Lock()], the trace of the locked section, [mu.Unlock()]. *)
Lemma ServeHTTP_trace (E : Env) (interc : Interceptor) (r : Request)
    (wd : World) :
  let out := fst (ServeHTTP E interc r wd) in
  exists tr,
    extends wd tr (snd (ServeHTTP E interc r wd)) /\
    ((Forall quiet tr /\ forall res, out <> Responded res) \/
     (exists command body,
        intercepted E r command /\
        0 <= MWM command <= maxMWM E /\
        tr = EvLock :: body ++ [EvUnlock] /\
        ((Forall quiet body /\ forall res, out <> Responded res) \/
         (exists q1 q2 start n wd3 wd4,
            body =
              q1 ++ [EvPoWCall (TrunkTxHash command) (BranchTxHash command)
                       (Trytes_req command) (uint64 (MWM command));
                     EvPoWReturn (DoPoW E (TrunkTxHash command)
                                    (BranchTxHash command)
                                    (Trytes_req command)
                                    (uint64 (MWM command)))] ++ q2 /\
            Forall quiet q1 /\ Forall quiet q2 /\
            Trytes_req command <> [] /\
            compute_and_respond E command start n wd3 = (out, wd4))))).
Proof.
  intros out. subst out.
  destruct (ServeHTTP_cases E interc r wd) as [(r' & ->) | [-> | (command & Hi)]].
  - exists [EvForward r']. split; [solve_extends|]. left.
    split; [solve_quiet | discriminate].
  - exists []. split; [apply extends_refl|]. left.
    split; [constructor | discriminate].
  - destruct (ServeHTTP_of_intercepted E interc r command wd Hi)
      as (body & Hb & ->).
    destruct ((MWM command >? maxMWM E) || (MWM command <? 0)) eqn:Hd.
    + exists []. split; [apply extends_refl|]. left.
      split; [constructor | discriminate].
    + apply difficulty_in_range in Hd.
      destruct (locked_section E interc _ command (emit EvLock wd))
        as [out wd2] eqn:Hls.
      destruct (locked_section_trace _ _ _ _ _ _ _ Hls) as (tr & Hx & Hshape).
      exists (EvLock :: tr ++ [EvUnlock]). split.
      * apply extends_cons. simpl. apply extends_snoc. exact Hx.
      * right. exists command, tr. simpl.
        split; [exact Hi|]. split; [exact Hd|]. split; [reflexivity|].
        destruct Hshape as [Hq | (q1 & q2 & start & n & wd4 & Hrest)];
          [left; exact Hq | right].
        exists q1, q2, start, n, wd4, wd2. exact Hrest.
Qed.

Lemma intercepted_out_of_range (E : Env) (interc : Interceptor) (r : Request)
    (command : AttachToTangleReq) (wd : World) :
  intercepted E r command ->
  MWM command < 0 \/ maxMWM E < MWM command ->
  ServeHTTP E interc r wd
  = (Rejected StatusBadRequest
       (Wrapf ErrInvalidMWM "use mwm between 1-%d" (maxMWM E)), wd).
Proof.
  intros Hi Hd. apply difficulty_out_of_range in Hd.
  destruct (ServeHTTP_of_intercepted E interc r command wd Hi)
    as (body & _ & ->).
  rewrite Hd. reflexivity.
Qed.

Lemma intercepted_in_range (E : Env) (interc : Interceptor) (r : Request)
    (command : AttachToTangleReq) (wd : World) :
  intercepted E r command ->
  0 <= MWM command <= maxMWM E ->
  exists body,
    Body r = Some body /\
    ServeHTTP E interc r wd =
      let '(out, wd2) :=
        locked_section E interc
          (with_Body r (Some (NewReader (unread body)))) command
          (emit EvLock wd) in
      (out, emit EvUnlock wd2).
Proof.
  intros Hi Hd. apply difficulty_in_range in Hd.
  destruct (ServeHTTP_of_intercepted E interc r command wd Hi)
    as (body & Hb & ->).
  rewrite Hd. eauto.
Qed.

Lemma intercepted_in_range_locks (E : Env) (interc : Interceptor)
    (r : Request) (command : AttachToTangleReq) (wd : World) :
  intercepted E r command ->
  0 <= MWM command <= maxMWM E ->
  exists tr, trace_of E interc (r, wd) = EvLock :: tr.
Proof.
  intros Hi Hd.
  destruct (intercepted_in_range E interc r command wd Hi Hd)
    as (body & _ & Hrun).
  destruct (locked_section E interc
              (with_Body r (Some (NewReader (unread body)))) command
              (emit EvLock wd)) as [out wd2] eqn:Hls.
  destruct (locked_section_trace _ _ _ _ _ _ _ Hls) as (tr & Hx & _).
  exists (tr ++ [EvUnlock]). apply trace_of_extends.
  rewrite Hrun. simpl. apply extends_cons, extends_snoc. exact Hx.
Qed.

(** The locked section never answers with the difficulty error. *)
Lemma locked_section_not_difficulty (E : Env) (interc : Interceptor)
    (r : Request) (command : AttachToTangleReq) (wd : World) (limit : Z) :
  fst (locked_section E interc r command wd)
  <> Rejected StatusBadRequest
       (Wrapf ErrInvalidMWM "use mwm between 1-%d" limit).
Proof.
  destruct (locked_section E interc r command wd) as [out wd'] eqn:Hls.
  simpl.
  destruct (locked_section_paths _ _ _ _ _ _ _ Hls)
    as [(_ & -> & _) | [(_ & _ & -> & _)
        | [(_ & _ & -> & _) | (_ & _ & _ & logs & wd4 & _ & _ & Hc)]]];
    try discriminate.
  pose proof (compute_and_respond_outcomes E command
                (UnixNano (logPrintf (LogNewRequest (RemoteAddr r)) wd))
                (Z.of_nat (length (Trytes_req command))) wd4) as Ho.
  rewrite Hc in Ho. simpl in Ho.
  destruct Ho as [-> | [-> | (res & ->)]]; discriminate.
Qed.

(* ===================================================================== *)
(** ** Classification: undecodable bodies                                 *)
(* ===================================================================== *)

(** C1: a POST whose body does not decode as the envelope is handed to the
    next handler, but with the body stream as [ioutil.ReadAll] left it: the
    re-attachment of the bytes comes after this return.  What the upstream
    can read is empty, and so differs from what the client sent whenever the
    client sent anything. *)
Theorem undecodable_body_forwarded_drained (E : Env) (interc : Interceptor)
    (r : Request) (body : Reader) (wd : World) :
  Method r = MethodPost ->
  Body r = Some body ->
  faulty body = false ->
  json_Unmarshal E (unread body) = None ->
  exists r',
    ServeHTTP E interc r wd
      = (Forwarded r' (Next interc r'), emit (EvForward r') wd) /\
    readable_body r' = [] /\
    (unread body <> [] -> readable_body r' <> readable_body r).
Proof.
  intros Hm Hb Hf Hj.
  exists (with_Body r (Some {| unread := []; faulty := faulty body |})).
  split; [|split].
  - unfold ServeHTTP. rewrite Hm, Hb. simpl. rewrite Hf, Hj. reflexivity.
  - reflexivity.
  - intros Hne. unfold readable_body. rewrite Hb. simpl. congruence.
Qed.

Lemma undecodable_body_forwarded_drained_witness :
  exists r',
    ServeHTTP (Fixture.env [] true 14 20) Fixture.upstream
      (Fixture.post "hello") (boot 0 (fun _ => 0))
      = (Forwarded r' (StatusOK, None),
         emit (EvForward r') (boot 0 (fun _ => 0))) /\
    readable_body r' = [] /\
    readable_body (Fixture.post "hello") = Fixture.bytes "hello".
Proof.
  destruct (undecodable_body_forwarded_drained
              (Fixture.env [] true 14 20) Fixture.upstream
              (Fixture.post "hello")
              {| unread := Fixture.bytes "hello"; faulty := false |}
              (boot 0 (fun _ => 0))
              eq_refl eq_refl eq_refl eq_refl) as (r' & Hrun & Hempty & _).
  exists r'. split; [exact Hrun|]. split; [exact Hempty | reflexivity].
Defined.

(* ===================================================================== *)
(** ** Validation                                                         *)
(* ===================================================================== *)

(** C4: for an intercepted request the handler answers with the difficulty
    error, status 400, exactly when the difficulty is negative or above
    [maxMWM]; it then performs no effect at all, so the primitive is not
    called; a difficulty inside [0, maxMWM] passes the check and the handler
    goes on to take the lock. *)
Theorem difficulty_check (E : Env) (interc : Interceptor) (r : Request)
    (command : AttachToTangleReq) (wd : World) :
  intercepted E r command ->
  let difficulty_error :=
    Rejected StatusBadRequest
      (Wrapf ErrInvalidMWM "use mwm between 1-%d" (maxMWM E)) in
  (fst (ServeHTTP E interc r wd) = difficulty_error <->
   MWM command < 0 \/ maxMWM E < MWM command) /\
  (MWM command < 0 \/ maxMWM E < MWM command ->
   trace_of E interc (r, wd) = [] /\
   invokes_pow (trace_of E interc (r, wd)) = false) /\
  (0 <= MWM command <= maxMWM E ->
   exists tr, trace_of E interc (r, wd) = EvLock :: tr).
Proof.
  intros Hi difficulty_error. split; [split|split].
  - intros Hout.
    destruct (Z_lt_dec (MWM command) 0) as [|Hlo]; [auto|].
    destruct (Z_lt_dec (maxMWM E) (MWM command)) as [|Hhi]; [auto|].
    exfalso.
    destruct (intercepted_in_range E interc r command wd Hi ltac:(lia))
      as (body & _ & Hrun).
    rewrite Hrun in Hout.
    pose proof (locked_section_not_difficulty E interc
                  (with_Body r (Some (NewReader (unread body)))) command
                  (emit EvLock wd) (maxMWM E)) as Hno.
    destruct (locked_section E interc _ command (emit EvLock wd)).
    exact (Hno Hout).
  - intros Hd. rewrite (intercepted_out_of_range E interc r command wd Hi Hd).
    reflexivity.
  - intros Hd.
    assert (Ht : trace_of E interc (r, wd) = []).
    { apply trace_of_extends.
      rewrite (intercepted_out_of_range E interc r command wd Hi Hd).
      apply extends_refl. }
    rewrite Ht. auto.
  - apply intercepted_in_range_locks. exact Hi.
Qed.

(** Discharges [intercepted] for a fixture request by evaluation. *)
Ltac fixture_intercepted :=
  split;
  [ reflexivity
  | eexists; split;
    [ reflexivity
    | split; [reflexivity | split; [vm_compute; reflexivity | reflexivity]] ] ].

Lemma difficulty_check_witness :
  fst (ServeHTTP (Fixture.env [Fixture.attach 15 []] true 14 20)
         Fixture.upstream
         (Fixture.post (Fixture.render_request (Fixture.attach 15 [])))
         (boot 0 (fun _ => 0)))
  = Rejected StatusBadRequest (Wrapf ErrInvalidMWM "use mwm between 1-%d" 14).
Proof.
  assert (Hi : intercepted (Fixture.env [Fixture.attach 15 []] true 14 20)
                 (Fixture.post (Fixture.render_request (Fixture.attach 15 [])))
                 (Fixture.attach 15 [])) by fixture_intercepted.
  pose proof (difficulty_check _ Fixture.upstream _ _ (boot 0 (fun _ => 0)) Hi)
    as H.
  cbv zeta in H. destruct H as ((_ & H) & _).
  apply H. right. simpl. lia.
Defined.

(** C10: an intercepted request that is out of bounds on both counts gets
    the difficulty error: that check returns before [mu.Lock()], so the run
    has no effect at all, whereas an answer with the batch-size error is
    only ever given from inside the locked section. *)
Theorem difficulty_error_takes_precedence (E : Env) (interc : Interceptor)
    (r : Request) (command : AttachToTangleReq) (wd : World) :
  intercepted E r command ->
  MWM command < 0 \/ maxMWM E < MWM command ->
  Z.of_nat (length (Trytes_req command)) > maxTxInBundle E ->
  ServeHTTP E interc r wd
  = (Rejected StatusBadRequest
       (Wrapf ErrInvalidMWM "use mwm between 1-%d" (maxMWM E)), wd) /\
  trace_of E interc (r, wd) = [] /\
  (forall r2 c2 wd2,
     intercepted E r2 c2 ->
     fst (ServeHTTP E interc r2 wd2)
     = Rejected StatusBadRequest
         (Wrapf ErrTxBundleLimitExceeded "max allowed is %d"
            (maxTxInBundle E)) ->
     exists tr, trace_of E interc (r2, wd2) = EvLock :: tr).
Proof.
  intros Hi Hd _.
  pose proof (intercepted_out_of_range E interc r command wd Hi Hd) as Hrun.
  split; [exact Hrun|]. split.
  - apply trace_of_extends. rewrite Hrun. apply extends_refl.
  - intros r2 c2 wd2 Hi2 Hout.
    apply (intercepted_in_range_locks E interc r2 c2 wd2 Hi2).
    destruct (Z_lt_dec (MWM c2) 0) as [Hlo|Hlo];
      [|destruct (Z_lt_dec (maxMWM E) (MWM c2)) as [Hhi|Hhi]; [|lia]].
    + rewrite (intercepted_out_of_range E interc r2 c2 wd2 Hi2) in Hout
        by auto.
      discriminate.
    + rewrite (intercepted_out_of_range E interc r2 c2 wd2 Hi2) in Hout
        by auto.
      discriminate.
Qed.

Lemma difficulty_error_takes_precedence_witness :
  ServeHTTP (Fixture.env [Fixture.attach 15 ["A"; "B"; "C"]] true 14 2)
    Fixture.upstream
    (Fixture.post (Fixture.render_request (Fixture.attach 15 ["A"; "B"; "C"])))
    (boot 0 (fun _ => 0))
  = (Rejected StatusBadRequest (Wrapf ErrInvalidMWM "use mwm between 1-%d" 14),
     boot 0 (fun _ => 0)).
Proof.
  assert (Hi : intercepted
                 (Fixture.env [Fixture.attach 15 ["A"; "B"; "C"]] true 14 2)
                 (Fixture.post
                    (Fixture.render_request (Fixture.attach 15 ["A"; "B"; "C"])))
                 (Fixture.attach 15 ["A"; "B"; "C"])) by fixture_intercepted.
  apply (difficulty_error_takes_precedence _ Fixture.upstream _ _
           (boot 0 (fun _ => 0)) Hi).
  - right. simpl. lia.
  - simpl. lia.
Defined.

(** C5, as stated, fails: with a negative configured maximum the empty
    batch exceeds it, and the empty batch is forwarded, not rejected. *)
Lemma batch_limit_counterexample :
  ~ (forall (E : Env) (interc : Interceptor) (r : Request)
            (command : AttachToTangleReq) (wd : World),
       intercepted E r command ->
       Z.of_nat (length (Trytes_req command)) > maxTxInBundle E ->
       exists status err,
         fst (ServeHTTP E interc r wd) = Rejected status err /\
         400 <= status < 500).
Proof.
  intros H.
  destruct (H (Fixture.env [Fixture.attach 14 []] true 14 (-1))
              Fixture.upstream
              (Fixture.post (Fixture.render_request (Fixture.attach 14 [])))
              (Fixture.attach 14 []) (boot 0 (fun _ => 0)))
    as (status & err & Hout & _).
  - fixture_intercepted.
  - simpl. lia.
  - vm_compute in Hout. discriminate.
Qed.

(** C5, amended: an intercepted request whose batch is not empty and longer
    than [maxTxInBundle] is answered with status 400 (the difficulty error
    if the difficulty is out of bounds as well, the batch-size error
    otherwise) and the primitive is not called. *)
Theorem batch_limit_rejects (E : Env) (interc : Interceptor) (r : Request)
    (command : AttachToTangleReq) (wd : World) :
  intercepted E r command ->
  Trytes_req command <> [] ->
  Z.of_nat (length (Trytes_req command)) > maxTxInBundle E ->
  fst (ServeHTTP E interc r wd)
  = Rejected StatusBadRequest
      (if (MWM command >? maxMWM E) || (MWM command <? 0)
       then Wrapf ErrInvalidMWM "use mwm between 1-%d" (maxMWM E)
       else Wrapf ErrTxBundleLimitExceeded "max allowed is %d"
              (maxTxInBundle E)) /\
  invokes_pow (trace_of E interc (r, wd)) = false.
Proof.
  intros Hi Hne Hlen.
  destruct ((MWM command >? maxMWM E) || (MWM command <? 0)) eqn:Hd.
  - apply difficulty_out_of_range in Hd.
    pose proof (intercepted_out_of_range E interc r command wd Hi Hd) as Hrun.
    split; [rewrite Hrun; reflexivity|].
    rewrite (trace_of_extends E interc r wd []); [reflexivity|].
    rewrite Hrun. apply extends_refl.
  - apply difficulty_in_range in Hd.
    destruct (intercepted_in_range E interc r command wd Hi Hd)
      as (body & _ & Hrun).
    destruct (locked_section E interc
                (with_Body r (Some (NewReader (unread body)))) command
                (emit EvLock wd)) as [out wd2] eqn:Hls.
    destruct (locked_section_paths _ _ _ _ _ _ _ Hls)
      as [(Hnil & _) | [(_ & _ & Ho & Hw)
          | [(_ & Hle & _) | (_ & Hle & _)]]];
      [contradiction | | lia | lia].
    split; [rewrite Hrun, Ho; reflexivity|].
    erewrite (trace_of_extends _ _ _ _ [_; _; _; _]);
      [| rewrite Hrun, Hw; simpl; solve_extends].
    reflexivity.
Qed.

Lemma batch_limit_rejects_witness :
  fst (ServeHTTP (Fixture.env [Fixture.attach 14 ["A"; "B"; "C"]] true 14 2)
         Fixture.upstream
         (Fixture.post
            (Fixture.render_request (Fixture.attach 14 ["A"; "B"; "C"])))
         (boot 0 (fun _ => 0)))
  = Rejected StatusBadRequest
      (Wrapf ErrTxBundleLimitExceeded "max allowed is %d" 2).
Proof.
  assert (Hi : intercepted
                 (Fixture.env [Fixture.attach 14 ["A"; "B"; "C"]] true 14 2)
                 (Fixture.post
                    (Fixture.render_request (Fixture.attach 14 ["A"; "B"; "C"])))
                 (Fixture.attach 14 ["A"; "B"; "C"])) by fixture_intercepted.
  apply (batch_limit_rejects _ Fixture.upstream _ _ (boot 0 (fun _ => 0)) Hi).
  - discriminate.
  - simpl. lia.
Defined.

Lemma quiet_not_call (tr : list Event) (trunk branch : Trytes)
    (trytes : list Trytes) (mwm : Z) :
  Forall quiet tr -> EvPoWCall trunk branch trytes mwm ∈ tr -> False.
Proof.
  intros Hq Hin. rewrite Forall_forall in Hq.
  destruct (Hq _ Hin) as (_ & _ & Hc & _). discriminate.
Qed.

Lemma locked_quiet_no_pow (body : list Event) :
  Forall quiet body -> invokes_pow (EvLock :: body ++ [EvUnlock]) = false.
Proof.
  intros Hq. simpl. rewrite invokes_pow_app, (quiet_no_pow body Hq).
  reflexivity.
Qed.

(** Whatever the request, a call of the primitive in the trace is a call on
    a batch that is not empty. *)
Lemma pow_call_batch_nonempty (E : Env) (interc : Interceptor) (r : Request)
    (wd : World) (trunk branch : Trytes) (trytes : list Trytes) (mwm : Z) :
  EvPoWCall trunk branch trytes mwm ∈ trace_of E interc (r, wd) ->
  trytes <> [].
Proof.
  destruct (ServeHTTP_trace E interc r wd) as (tr & Hx & Hshape).
  rewrite (trace_of_extends _ _ _ _ _ Hx). intros Hin.
  destruct Hshape as [(Hq & _) | (command & body & _ & _ & -> & Hbody)].
  { exfalso. exact (quiet_not_call _ _ _ _ _ Hq Hin). }
  apply elem_of_cons in Hin as [Hin | Hin]; [discriminate|].
  apply elem_of_app in Hin as [Hin | Hin];
    [| apply list_elem_of_singleton in Hin; discriminate].
  destruct Hbody as [(Hq & _) | (q1 & q2 & start & n & wd3 & wd4 & -> & Hq1
                                   & Hq2 & Hne & _)].
  { exfalso. exact (quiet_not_call _ _ _ _ _ Hq Hin). }
  apply elem_of_app in Hin as [Hin | Hin].
  { exfalso. exact (quiet_not_call _ _ _ _ _ Hq1 Hin). }
  apply elem_of_app in Hin as [Hin | Hin].
  - apply elem_of_cons in Hin as [Hin | Hin].
    + inversion Hin; subst. exact Hne.
    + apply list_elem_of_singleton in Hin. discriminate.
  - exfalso. exact (quiet_not_call _ _ _ _ _ Hq2 Hin).
Qed.

(** C6, as stated, fails: an empty batch with a difficulty out of bounds is
    rejected by the difficulty check, which comes first. *)
Lemma empty_batch_counterexample :
  ~ (forall (E : Env) (interc : Interceptor) (r : Request)
            (command : AttachToTangleReq) (wd : World),
       intercepted E r command ->
       Trytes_req command = [] ->
       exists r' ret, fst (ServeHTTP E interc r wd) = Forwarded r' ret).
Proof.
  intros H.
  destruct (H (Fixture.env [Fixture.attach 15 []] true 14 20)
              Fixture.upstream
              (Fixture.post (Fixture.render_request (Fixture.attach 15 [])))
              (Fixture.attach 15 []) (boot 0 (fun _ => 0)))
    as (r' & ret & Hout).
  - fixture_intercepted.
  - reflexivity.
  - vm_compute in Hout. discriminate.
Qed.

(** C6, amended: an intercepted request whose difficulty is inside
    [0, maxMWM] and whose batch is empty is handed to the next handler with
    the bytes of the body attached again, and the handler returns what the
    next handler returns; and in no run at all is the primitive called on an
    empty batch. *)
Theorem empty_batch_passthrough (E : Env) (interc : Interceptor)
    (r : Request) (command : AttachToTangleReq) (wd : World) :
  intercepted E r command ->
  0 <= MWM command <= maxMWM E ->
  Trytes_req command = [] ->
  (exists r',
     ServeHTTP E interc r wd
       = (Forwarded r' (Next interc r'),
          emit EvUnlock (emit (EvForward r') (emit EvLock wd))) /\
     readable_body r' = readable_body r /\
     Method r' = Method r /\
     RemoteAddr r' = RemoteAddr r) /\
  (forall r0 wd0 trunk branch trytes mwm,
     EvPoWCall trunk branch trytes mwm ∈ trace_of E interc (r0, wd0) ->
     trytes <> []).
Proof.
  intros Hi Hd Hnil. split.
  - destruct (intercepted_in_range E interc r command wd Hi Hd)
      as (body & Hb & Hrun).
    exists (with_Body r (Some (NewReader (unread body)))).
    split; [|split; [|split; reflexivity]].
    + rewrite Hrun. unfold locked_section. rewrite Hnil. reflexivity.
    + unfold readable_body. rewrite Hb. reflexivity.
  - intros r0 wd0 trunk branch trytes mwm.
    apply pow_call_batch_nonempty.
Qed.

Lemma empty_batch_passthrough_witness :
  exists r',
    fst (ServeHTTP (Fixture.env [Fixture.attach 14 []] true 14 20)
           Fixture.upstream
           (Fixture.post (Fixture.render_request (Fixture.attach 14 [])))
           (boot 0 (fun _ => 0)))
    = Forwarded r' (StatusOK, None) /\
    readable_body r'
    = Fixture.bytes (Fixture.render_request (Fixture.attach 14 [])).
Proof.
  assert (Hi : intercepted (Fixture.env [Fixture.attach 14 []] true 14 20)
                 (Fixture.post (Fixture.render_request (Fixture.attach 14 [])))
                 (Fixture.attach 14 [])) by fixture_intercepted.
  destruct (empty_batch_passthrough _ Fixture.upstream _ _
              (boot 0 (fun _ => 0)) Hi ltac:(simpl; lia) eq_refl)
    as ((r' & Hrun & Hbody & _) & _).
  exists r'. split; [rewrite Hrun; reflexivity | exact Hbody].
Defined.

(** C7, as stated, fails: a batch with an undecodable transaction and a
    difficulty out of bounds gets the difficulty error, not the
    malformed-transaction error. *)
Lemma undecodable_transaction_counterexample :
  ~ (forall (E : Env) (interc : Interceptor) (r : Request)
            (command : AttachToTangleReq) (wd : World),
       intercepted E r command ->
       (exists t, t ∈ Trytes_req command /\ AsTransactionObject E t = None) ->
       fst (ServeHTTP E interc r wd)
       = Rejected StatusBadRequest ErrBuildingTx).
Proof.
  intros H.
  assert (Hout := H (Fixture.env [Fixture.attach 15 ["X"]] true 14 20)
              Fixture.upstream
              (Fixture.post (Fixture.render_request (Fixture.attach 15 ["X"])))
              (Fixture.attach 15 ["X"]) (boot 0 (fun _ => 0))
              ltac:(fixture_intercepted)
              (ex_intro _ "X" (conj (list_elem_of_here _ _) eq_refl))).
  vm_compute in Hout. discriminate.
Qed.

(** C7, amended: an intercepted request with a raw transaction that does
    not decode is answered with status 400 and the primitive is not called;
    the error is the malformed-transaction error whenever the request
    passes the difficulty check and the batch-size check. *)
Theorem undecodable_transaction_rejects (E : Env) (interc : Interceptor)
    (r : Request) (command : AttachToTangleReq) (wd : World) :
  intercepted E r command ->
  (exists t, t ∈ Trytes_req command /\ AsTransactionObject E t = None) ->
  (exists err, fst (ServeHTTP E interc r wd) = Rejected StatusBadRequest err) /\
  invokes_pow (trace_of E interc (r, wd)) = false /\
  (0 <= MWM command <= maxMWM E ->
   Z.of_nat (length (Trytes_req command)) <= maxTxInBundle E ->
   fst (ServeHTTP E interc r wd) = Rejected StatusBadRequest ErrBuildingTx).
Proof.
  intros Hi (t & Hin & Hbad).
  destruct ((MWM command >? maxMWM E) || (MWM command <? 0)) eqn:Hd.
  - apply difficulty_out_of_range in Hd.
    pose proof (intercepted_out_of_range E interc r command wd Hi Hd) as Hrun.
    split; [rewrite Hrun; eauto|]. split.
    + rewrite (trace_of_extends E interc r wd []); [reflexivity|].
      rewrite Hrun. apply extends_refl.
    + intros Hin_range. lia.
  - apply difficulty_in_range in Hd.
    destruct (intercepted_in_range E interc r command wd Hi Hd)
      as (body & _ & Hrun).
    destruct (locked_section E interc
                (with_Body r (Some (NewReader (unread body)))) command
                (emit EvLock wd)) as [out wd2] eqn:Hls.
    destruct (locked_section_paths _ _ _ _ _ _ _ Hls)
      as [(Hnil & _) | [(_ & Hgt & Ho & Hw)
          | [(_ & _ & Ho & logs & Hx & Hlogs) | (_ & _ & Hall & _)]]].
    + rewrite Hnil in Hin. inversion Hin.
    + split; [rewrite Hrun, Ho; eauto|]. split.
      * erewrite (trace_of_extends _ _ _ _ [_; _; _; _]);
          [| rewrite Hrun, Hw; simpl; solve_extends].
        reflexivity.
      * intros _ Hle. lia.
    + split; [rewrite Hrun, Ho; eauto|]. split.
      * rewrite (trace_of_extends E interc r wd
                   (EvLock :: (EvLog (LogNewRequest (RemoteAddr r)) :: logs)
                      ++ [EvUnlock])).
        -- apply locked_quiet_no_pow.
           constructor; [solve_quiet | apply Forall_log_quiet; exact Hlogs].
        -- rewrite Hrun. simpl.
           apply extends_cons, extends_cons, extends_snoc. exact Hx.
      * intros _ _. rewrite Hrun, Ho. reflexivity.
    + exfalso. exact (Hall t Hin Hbad).
Qed.

Lemma undecodable_transaction_rejects_witness :
  fst (ServeHTTP (Fixture.env [Fixture.attach 14 ["X"]] true 14 20)
         Fixture.upstream
         (Fixture.post (Fixture.render_request (Fixture.attach 14 ["X"])))
         (boot 0 (fun _ => 0)))
  = Rejected StatusBadRequest ErrBuildingTx.
Proof.
  assert (Hi : intercepted (Fixture.env [Fixture.attach 14 ["X"]] true 14 20)
                 (Fixture.post
                    (Fixture.render_request (Fixture.attach 14 ["X"])))
                 (Fixture.attach 14 ["X"])) by fixture_intercepted.
  apply (undecodable_transaction_rejects _ Fixture.upstream _ _
           (boot 0 (fun _ => 0)) Hi).
  - exists "X". split; [apply list_elem_of_here | reflexivity].
  - simpl. lia.
  - simpl. lia.
Defined.

(* ===================================================================== *)
(** ** The compute stage                                                  *)
(* ===================================================================== *)

Lemma holding_after_unlock (tr : list Event) :
  holding (tr ++ [EvUnlock]) = false.
Proof. unfold holding. rewrite fold_left_app. reflexivity. Qed.

(** C8: when the primitive reports a failure, the handler answers with
    status 400 and the proof-of-work error, and the last thing the run does
    is [mu.Unlock()]: the mutex is released when the handler returns. *)
Theorem pow_failure_rejects (E : Env) (interc : Interceptor) (r : Request)
    (wd : World) :
  EvPoWReturn None ∈ trace_of E interc (r, wd) ->
  fst (ServeHTTP E interc r wd)
  = Rejected StatusBadRequest ErrExecutingProofOfWork /\
  last (trace_of E interc (r, wd)) = Some EvUnlock /\
  holding (trace_of E interc (r, wd)) = false.
Proof.
  destruct (ServeHTTP_trace E interc r wd) as (tr & Hx & Hshape).
  rewrite (trace_of_extends _ _ _ _ _ Hx). intros Hin.
  assert (Hnq : forall q, Forall quiet q -> EvPoWReturn None ∈ q -> False).
  { intros q Hq Hq_in. rewrite Forall_forall in Hq.
    destruct (Hq _ Hq_in) as (_ & _ & _ & Hr). exact (Hr None eq_refl). }
  destruct Hshape as [(Hq & _) | (command & body & _ & _ & -> & Hbody)].
  { exfalso. exact (Hnq _ Hq Hin). }
  split; [|split].
  - apply elem_of_cons in Hin as [Hin | Hin]; [discriminate|].
    apply elem_of_app in Hin as [Hin | Hin];
      [| apply list_elem_of_singleton in Hin; discriminate].
    destruct Hbody as [(Hq & _) | (q1 & q2 & start & n & wd3 & wd4 & -> & Hq1
                                     & Hq2 & _ & Hc)].
    { exfalso. exact (Hnq _ Hq Hin). }
    apply elem_of_app in Hin as [Hin | Hin];
      [exfalso; exact (Hnq _ Hq1 Hin)|].
    apply elem_of_app in Hin as [Hin | Hin];
      [|exfalso; exact (Hnq _ Hq2 Hin)].
    apply elem_of_cons in Hin as [Hin | Hin]; [discriminate|].
    apply list_elem_of_singleton in Hin. inversion Hin as [Hpow].
    pose proof (compute_and_respond_failure E command start n wd3
                  (eq_sym Hpow)) as Hfail.
    rewrite Hc in Hfail. exact Hfail.
  - rewrite app_comm_cons. apply last_snoc.
  - rewrite app_comm_cons. apply holding_after_unlock.
Qed.

Lemma pow_failure_rejects_witness :
  fst (ServeHTTP
         (Fixture.env [Fixture.attach 14 [Fixture.nines 2673]] false 14 20)
         Fixture.upstream
         (Fixture.post
            (Fixture.render_request (Fixture.attach 14 [Fixture.nines 2673])))
         (boot 0 (fun _ => 0)))
  = Rejected StatusBadRequest ErrExecutingProofOfWork.
Proof.
  apply (pow_failure_rejects
           (Fixture.env [Fixture.attach 14 [Fixture.nines 2673]] false 14 20)
           Fixture.upstream
           (Fixture.post
              (Fixture.render_request
                 (Fixture.attach 14 [Fixture.nines 2673])))
           (boot 0 (fun _ => 0))).
  vm_compute. do 5 apply list_elem_of_further. apply list_elem_of_here.
Defined.

Lemma locked_section_no_panic (E : Env) (interc : Interceptor) (r : Request)
    (command : AttachToTangleReq) (wd : World) :
  fst (locked_section E interc r command wd) <> Panicked.
Proof.
  destruct (locked_section E interc r command wd) as [out wd'] eqn:Hls.
  simpl.
  destruct (locked_section_paths _ _ _ _ _ _ _ Hls)
    as [(_ & -> & _) | [(_ & _ & -> & _)
        | [(_ & _ & -> & _) | (_ & _ & _ & logs & wd4 & _ & _ & Hc)]]];
    try discriminate.
  pose proof (compute_and_respond_outcomes E command
                (UnixNano (logPrintf (LogNewRequest (RemoteAddr r)) wd))
                (Z.of_nat (length (Trytes_req command))) wd4) as Ho.
  rewrite Hc in Ho. simpl in Ho.
  destruct Ho as [-> | [-> | (res & ->)]]; discriminate.
Qed.

(** C9: the handler never ends in an index error; in particular, when the
    decoding loop has run to its end over a batch that is not empty, the
    slice of transactions has the length of the batch, every slot holds the
    decoding of the raw transaction at the same index, and slot 0 is
    there to read the bundle hash from. *)
Theorem first_transaction_in_bounds (E : Env) (interc : Interceptor)
    (r : Request) (wd : World) (txTrytes : list Trytes) (ds : DecodeState)
    (wd1 wd2 : World) :
  fst (ServeHTTP E interc r wd) <> Panicked /\
  (txTrytes <> [] ->
   decode_loop E txTrytes (length txTrytes)
     {| isValueBundle := false; inputValue := 0;
        transactions := replicate (length txTrytes) zeroTransaction |} wd1
   = (LoopDone ds, wd2) ->
   length (transactions ds) = length txTrytes /\
   (forall i t, txTrytes !! i = Some t ->
      exists tx, AsTransactionObject E t = Some tx /\
                 transactions ds !! i = Some tx) /\
   exists t0 tx0,
     txTrytes !! 0%nat = Some t0 /\
     AsTransactionObject E t0 = Some tx0 /\
     transactions ds !! 0%nat = Some tx0).
Proof.
  split.
  - destruct (ServeHTTP_cases E interc r wd)
      as [(r' & ->) | [-> | (command & Hi)]]; try discriminate.
    destruct (ServeHTTP_of_intercepted E interc r command wd Hi)
      as (body & _ & ->).
    destruct ((MWM command >? maxMWM E) || (MWM command <? 0));
      [discriminate|].
    pose proof (locked_section_no_panic E interc
                  (with_Body r (Some (NewReader (unread body)))) command
                  (emit EvLock wd)) as Hnp.
    destruct (locked_section E interc _ command (emit EvLock wd)).
    exact Hnp.
  - intros Hne Hloop.
    destruct (decode_loop_filled _ _ _ _ _ _ _ Hloop) as (Hl & Hlow & _).
    simpl in Hl. rewrite length_replicate in Hl.
    split; [exact Hl|]. split.
    + intros i t Hi. apply lookup_lt_Some in Hi as Hlt.
      destruct (Hlow i Hlt) as (t' & tx & Ht' & Htx & Hslot).
      exists tx. split; [congruence | exact Hslot].
    + apply Hlow. destruct txTrytes; [contradiction | simpl; lia].
Qed.

Lemma first_transaction_in_bounds_witness :
  exists tx0,
    transactions
      {| isValueBundle := false; inputValue := 0;
         transactions := [{| Address := Fixture.nines 81; Value := 0;
                             Bundle := Fixture.nines 81 |}] |} !! 0%nat
    = Some tx0 /\
    Fixture.decode_nines (Fixture.nines 2673) = Some tx0.
Proof.
  destruct (first_transaction_in_bounds (Fixture.env [] true 14 20)
              Fixture.upstream (Fixture.post "hello") (boot 0 (fun _ => 0))
              [Fixture.nines 2673]
              {| isValueBundle := false; inputValue := 0;
                 transactions := [{| Address := Fixture.nines 81; Value := 0;
                                     Bundle := Fixture.nines 81 |}] |}
              (boot 0 (fun _ => 0)) (boot 0 (fun _ => 0)))
    as (_ & H).
  destruct (H ltac:(discriminate) ltac:(vm_compute; reflexivity))
    as (_ & _ & t0 & tx0 & Ht0 & Htx0 & Hslot).
  exists tx0. split; [exact Hslot|].
  inversion Ht0; subst t0. exact Htx0.
Defined.

(* ===================================================================== *)
(** ** The duration                                                       *)
(* ===================================================================== *)




(* ===================================================================== *)
(** ** Serialization of the primitive                                     *)
(* ===================================================================== *)

Lemma ServeHTTP_well_locked (E : Env) (interc : Interceptor)
    (job : Request * World) :
  well_locked false false (trace_of E interc job) = true.
Proof.
  destruct job as [r wd].
  destruct (ServeHTTP_trace E interc r wd) as (tr & Hx & Hshape).
  rewrite (trace_of_extends _ _ _ _ _ Hx).
  destruct Hshape as [(Hq & _) | (command & body & _ & _ & -> & Hbody)].
  { rewrite <- (app_nil_r tr), (quiet_well_locked _ _ _ _ Hq). reflexivity. }
  simpl.
  destruct Hbody as [(Hq & _) | (q1 & q2 & start & n & wd3 & wd4 & -> & Hq1
                                   & Hq2 & _ & _)].
  { rewrite (quiet_well_locked _ _ _ _ Hq). reflexivity. }
  rewrite <- !app_assoc, (quiet_well_locked _ _ _ _ Hq1). simpl.
  rewrite (quiet_well_locked _ _ _ _ Hq2). reflexivity.
Qed.

Lemma holding_snoc (tr : list Event) (e : Event) :
  holding (tr ++ [e]) = lock_after (holding tr) e.
Proof. unfold holding. rewrite fold_left_app. reflexivity. Qed.

Lemma computing_snoc (tr : list Event) (e : Event) :
  computing (tr ++ [e]) = pow_after (computing tr) e.
Proof. unfold computing. rewrite fold_left_app. reflexivity. Qed.

Lemma advance_performed (g : Goroutine) (e : Event) (rest : list Event) :
  pending g = e :: rest ->
  advance g = {| performed := performed g ++ [e]; pending := rest |}.
Proof. intros H. unfold advance. rewrite H. reflexivity. Qed.

Lemma advance_ok (g : Goroutine) (e : Event) (rest : list Event) :
  pending g = e :: rest -> goroutine_ok g -> goroutine_ok (advance g).
Proof.
  intros Hp (Hwl & Hch). rewrite (advance_performed g e rest Hp).
  unfold goroutine_ok. simpl. rewrite holding_snoc, computing_snoc.
  rewrite Hp in Hwl.
  destruct (holding (performed g)), (computing (performed g));
    destruct e; simpl in *; try discriminate; auto;
    try (specialize (Hch eq_refl); discriminate).
Qed.

(** A goroutine about to unlock holds the mutex. *)
Lemma unlock_needs_holding (g : Goroutine) (rest : list Event) :
  pending g = EvUnlock :: rest -> goroutine_ok g ->
  holding (performed g) = true.
Proof.
  intros Hp (Hwl & _). rewrite Hp in Hwl. simpl in Hwl.
  destruct (holding (performed g)); [reflexivity | discriminate].
Qed.

Lemma step_preserves (p q : Pool) : step p q -> pool_ok p -> pool_ok q.
Proof.
  intros Hstep (Hg & Hmu & Huniq).
  destruct Hstep as [i g rest gs Hi Hp | i g rest gs Hi Hp
                     | i g e rest gs held Hi Hp Hnl Hnu]; simpl in *.
  - (* Lock: nobody held the mutex before *)
    assert (Hfree : forall j gj, gs !! j = Some gj ->
                      holding (performed gj) = false).
    { intros j gj Hj. destruct (holding (performed gj)) eqn:Hh; [|reflexivity].
      discriminate (Hmu j gj Hj Hh). }
    split; [|split].
    + intros j gj Hj. apply list_lookup_insert_Some in Hj
        as [(<- & <- & _) | (_ & Hj)]; [|eauto].
      eapply advance_ok; eauto.
    + auto.
    + intros j k gj gk Hj Hk Hhj Hhk.
      apply list_lookup_insert_Some in Hj as [(<- & _ & _) | (_ & Hj)];
        [|rewrite (Hfree _ _ Hj) in Hhj; discriminate].
      apply list_lookup_insert_Some in Hk as [(<- & _ & _) | (_ & Hk)];
        [reflexivity | rewrite (Hfree _ _ Hk) in Hhk; discriminate].
  - (* Unlock: the one holder lets go *)
    pose proof (unlock_needs_holding g rest Hp (Hg i g Hi)) as Hheld.
    assert (Hnone : forall j gj, <[i := advance g]> gs !! j = Some gj ->
                      holding (performed gj) = false).
    { intros j gj Hj. apply list_lookup_insert_Some in Hj
        as [(<- & <- & _) | (Hne & Hj)].
      - rewrite (advance_performed g _ rest Hp). simpl.
        rewrite holding_snoc. reflexivity.
      - destruct (holding (performed gj)) eqn:Hh; [|reflexivity].
        destruct Hne. exact (Huniq i j g gj Hi Hj Hheld Hh). }
    split; [|split].
    + intros j gj Hj. apply list_lookup_insert_Some in Hj
        as [(<- & <- & _) | (_ & Hj)]; [|eauto].
      eapply advance_ok; eauto.
    + intros j gj Hj Hh. rewrite (Hnone j gj Hj) in Hh. discriminate.
    + intros j k gj gk Hj _ Hh. rewrite (Hnone j gj Hj) in Hh. discriminate.
  - (* any other effect leaves the holders as they were *)
    assert (Hsame : holding (performed (advance g)) = holding (performed g)).
    { rewrite (advance_performed g e rest Hp). simpl. rewrite holding_snoc.
      destruct e; try reflexivity; contradiction. }
    assert (Hback : forall j gj, <[i := advance g]> gs !! j = Some gj ->
                      holding (performed gj) = true ->
                      exists gj', gs !! j = Some gj' /\
                                  holding (performed gj') = true).
    { intros j gj Hj Hh. apply list_lookup_insert_Some in Hj
        as [(<- & <- & _) | (_ & Hj)]; [|eauto].
      exists g. rewrite <- Hsame. auto. }
    split; [|split].
    + intros j gj Hj. apply list_lookup_insert_Some in Hj
        as [(<- & <- & _) | (_ & Hj)]; [|eauto].
      eapply advance_ok; eauto.
    + intros j gj Hj Hh. destruct (Hback j gj Hj Hh) as (gj' & Hj' & Hh').
      eauto.
    + intros j k gj gk Hj Hk Hhj Hhk.
      destruct (Hback j gj Hj Hhj) as (gj' & Hj' & Hhj').
      destruct (Hback k gk Hk Hhk) as (gk' & Hk' & Hhk').
      eauto.
Qed.

Lemma spawn_ok (E : Env) (interc : Interceptor)
    (jobs : list (Request * World)) :
  pool_ok (spawn E interc jobs).
Proof.
  assert (Hfresh : forall i g, goroutines (spawn E interc jobs) !! i = Some g ->
                     exists job, g = {| performed := [];
                                        pending := trace_of E interc job |}).
  { simpl. intros i g Hi. apply list_lookup_fmap_Some in Hi
      as (job & -> & _). eauto. }
  split; [|split].
  - intros i g Hi. destruct (Hfresh i g Hi) as (job & ->).
    split; [apply ServeHTTP_well_locked | discriminate].
  - intros i g Hi Hh. destruct (Hfresh i g Hi) as (job & ->). discriminate.
  - intros i j gi gj Hi _ Hh. destruct (Hfresh i gi Hi) as (job & ->).
    discriminate.
Qed.

Lemma reachable_ok (p q : Pool) : reachable p q -> pool_ok p -> pool_ok q.
Proof.
  induction 1 as [|p q s Hstep _ IH]; [auto|].
  intros Hp. apply IH. exact (step_preserves p q Hstep Hp).
Qed.

(** C2: whatever the requests and however their goroutines are
    interleaved, at most one goroutine is inside the primitive; a goroutine
    inside the primitive holds the mutex, which is then locked; and a
    goroutine that has returned, whichever way, does not hold it. *)
Theorem compute_serialized (E : Env) (interc : Interceptor)
    (jobs : list (Request * World)) (p : Pool) :
  reachable (spawn E interc jobs) p ->
  (forall i j gi gj,
     goroutines p !! i = Some gi -> goroutines p !! j = Some gj ->
     computing (performed gi) = true -> computing (performed gj) = true ->
     i = j) /\
  (forall i g,
     goroutines p !! i = Some g -> computing (performed g) = true ->
     holding (performed g) = true /\ mu p = true) /\
  (forall i g,
     goroutines p !! i = Some g -> pending g = [] ->
     holding (performed g) = false).
Proof.
  intros Hreach.
  destruct (reachable_ok _ _ Hreach (spawn_ok E interc jobs))
    as (Hg & Hmu & Huniq).
  split; [|split].
  - intros i j gi gj Hi Hj Hci Hcj.
    destruct (Hg i gi Hi) as (_ & Hhi). destruct (Hg j gj Hj) as (_ & Hhj).
    eauto.
  - intros i g Hi Hc. destruct (Hg i g Hi) as (_ & Hh). eauto.
  - intros i g Hi Hp. destruct (Hg i g Hi) as (Hwl & _).
    rewrite Hp in Hwl. simpl in Hwl.
    destruct (holding (performed g)); [discriminate | reflexivity].
Qed.

Lemma fire_step (i : nat) (p q : Pool) : fire i p = Some q -> step p q.
Proof.
  unfold fire. destruct p as [held gs]. simpl.
  destruct (gs !! i) as [g|] eqn:Hi; [|discriminate].
  destruct (pending g) as [|e rest] eqn:Hp; [discriminate|].
  destruct e; try (intros H; inversion H; subst;
                   eapply step_effect; eauto; discriminate).
  - destruct held; [discriminate|]. intros H. inversion H; subst.
    eapply step_Lock; eauto.
  - destruct held; [|discriminate]. intros H. inversion H; subst.
    eapply step_Unlock; eauto.
Qed.

Lemma run_reachable (schedule : list nat) :
  forall p q, run schedule p = Some q -> reachable p q.
Proof.
  induction schedule as [|i schedule IH]; intros p q H; simpl in H.
  - inversion H; subst. apply rtc_refl.
  - destruct (fire i p) as [p1|] eqn:Hfire; [|discriminate].
    eapply rtc_l; [exact (fire_step _ _ _ Hfire) | exact (IH _ _ H)].
Qed.

Lemma compute_serialized_witness :
  let E := Fixture.env [Fixture.attach 14 [Fixture.nines 2673]] true 14 20 in
  let job :=
    (Fixture.post
       (Fixture.render_request (Fixture.attach 14 [Fixture.nines 2673])),
     boot 0 (fun _ => 0)) in
  let start := spawn E Fixture.upstream [job; job] in
  let p := default start (run [0; 0; 0; 0; 0]%nat start) in
  mu p = true /\
  fire 1 p = None /\
  forall i g,
    goroutines p !! i = Some g -> computing (performed g) = true -> i = 0%nat.
Proof.
  intros E job start p.
  assert (Hrun : run [0; 0; 0; 0; 0]%nat start = Some p)
    by (vm_compute; reflexivity).
  destruct (compute_serialized E Fixture.upstream [job; job] p
              (run_reachable _ _ _ Hrun)) as (Hmutex & Hhold & _).
  assert (H0 : exists g0, goroutines p !! 0%nat = Some g0 /\
                          computing (performed g0) = true).
  { eexists. split; vm_compute; reflexivity. }
  destruct H0 as (g0 & Hg0 & Hc0).
  split; [exact (proj2 (Hhold _ _ Hg0 Hc0))|].
  split; [vm_compute; reflexivity|].
  intros i g Hi Hc. exact (Hmutex i 0%nat g g0 Hi Hg0 Hc Hc0).
Defined.

(* ===================================================================== *)
(** ** The decoding loop, in full                                         *)
(* ===================================================================== *)

(** [solve_extends] for a trace whose spine is known; fails on any other. *)
Ltac close_extends :=
  unfold logPrintf, forward; cbn [app];
  repeat match goal with
         | |- extends _ (_ :: _) _ => apply extends_cons
         end;
  match goal with
  | |- extends _ [] _ => apply extends_refl
  end.

Lemma wrap64_idem (x : Z) : wrap64 (wrap64 x) = wrap64 x.
Proof. apply wrap64_mod. apply wrap64_cong. Qed.

Lemma wrap64_add_l (a b : Z) : wrap64 (wrap64 a + b) = wrap64 (a + b).
Proof.
  apply wrap64_mod. rewrite Zplus_mod, wrap64_cong, <- Zplus_mod. reflexivity.
Qed.

Lemma total_debit_app (txs1 txs2 : list Transaction) :
  total_debit (txs1 ++ txs2) = total_debit txs1 + total_debit txs2.
Proof.
  induction txs1 as [|tx txs1 IH]; simpl; [reflexivity|]. rewrite IH. lia.
Qed.

Lemma extends_elapsed (wd wd' : World) (tr : list Event) :
  extends wd tr wd' -> elapsed wd' = elapsed wd.
Proof. intros (_ & _ & H). exact H. Qed.

Lemma extends_now (wd wd' : World) (tr : list Event) :
  extends wd tr wd' -> now wd' - now wd = total_elapsed (elapsed wd) tr.
Proof. intros (_ & H & _). lia. Qed.

(** One turn of the loop on a transaction that decodes. *)
Lemma decode_step_ok (E : Env) (txTrytes : list Trytes) (i : nat)
    (ds : DecodeState) (wd : World) (t : Trytes) (tx : Transaction) :
  txTrytes !! i = Some t ->
  AsTransactionObject E t = Some tx ->
  (i < length (transactions ds))%nat ->
  exists ds1 wd1,
    decode_step E txTrytes i ds wd = (LoopDone ds1, wd1) /\
    extends wd (value_events tx) wd1 /\
    transactions ds1 = <[i := tx]> (transactions ds) /\
    isValueBundle ds1 = isValueBundle ds || carries_value tx /\
    inputValue ds1 = (if Value tx <? 0
                      then add64 (inputValue ds) (Value tx)
                      else inputValue ds).
Proof.
  intros Ht Htx Hi. unfold decode_step, value_events, carries_value.
  rewrite Ht, Htx.
  destruct (Value tx =? 0) eqn:Hz; simpl.
  - apply Z.eqb_eq in Hz.
    assert (Hn : (Value tx <? 0) = false) by (apply Z.ltb_ge; lia).
    rewrite Hn, (bool_decide_eq_true_2 _ Hi), orb_false_r.
    eexists _, _. split; [reflexivity|]. destruct ds; simpl.
    split; [apply extends_refl | repeat split].
  - destruct (Value tx <? 0); simpl;
      rewrite (bool_decide_eq_true_2 _ Hi), orb_true_r;
      eexists _, _; (split; [reflexivity|]); simpl;
      (split; [close_extends | repeat split]).
Qed.

(** The turns of the loop over a stretch [mid] of the batch that decodes:
    the value legs are logged last transaction first, the flag and the
    running total take the stretch into account, and the loop goes on below
    the stretch. *)
Lemma decode_loop_segment (E : Env) (l before : list Trytes)
    (mid : list Trytes) :
  forall (after : list Trytes) (txs : list Transaction) (ds : DecodeState)
         (wd : World),
    l = before ++ mid ++ after ->
    decodes E mid txs ->
    length (transactions ds) = length l ->
    exists ds' wd',
      decode_loop E l (length (before ++ mid)) ds wd
      = decode_loop E l (length before) ds' wd' /\
      extends wd (flat_map value_events (reverse txs)) wd' /\
      length (transactions ds') = length l /\
      isValueBundle ds' = isValueBundle ds || existsb carries_value txs /\
      wrap64 (inputValue ds') = wrap64 (inputValue ds + total_debit txs) /\
      (wrap64 (inputValue ds) = inputValue ds ->
       wrap64 (inputValue ds') = inputValue ds').
Proof.
  induction mid as [|t mid IH] using rev_ind;
    intros after txs ds wd Hl Hdec Hlen.
  - apply Forall2_nil_inv_l in Hdec. subst txs.
    exists ds, wd. rewrite app_nil_r. simpl.
    rewrite orb_false_r, Z.add_0_r.
    split; [reflexivity|]. split; [apply extends_refl|]. repeat split; auto.
  - apply Forall2_app_inv_l in Hdec
      as (txs' & txs1 & Hdec' & Hdec1 & ->).
    apply Forall2_cons_inv_l in Hdec1 as (tx & txs2 & Htx & Hnil & ->).
    apply Forall2_nil_inv_l in Hnil. subst txs2.
    assert (Hidx : l !! length (before ++ mid) = Some t).
    { rewrite Hl, <- app_assoc, app_assoc. apply list_lookup_middle.
      reflexivity. }
    assert (Hi : (length (before ++ mid) < length (transactions ds))%nat).
    { rewrite Hlen. eapply lookup_lt_Some. exact Hidx. }
    destruct (decode_step_ok E l _ ds wd t tx Hidx Htx Hi)
      as (ds1 & wd1 & Hstep & Hx1 & Htr1 & Hvb1 & Hiv1).
    destruct (IH (t :: after) txs' ds1 wd1) as
      (ds' & wd' & Hloop & Hx & Hlen' & Hvb & Hiv & Hrange).
    + rewrite Hl, <- app_assoc. reflexivity.
    + exact Hdec'.
    + rewrite Htr1, length_insert. exact Hlen.
    + exists ds', wd'. split; [|split; [|split; [|split; [|split]]]].
      * rewrite app_assoc, length_app. simpl length.
        rewrite Nat.add_1_r. simpl. rewrite Hstep. exact Hloop.
      * rewrite reverse_app. simpl.
        exact (extends_trans _ _ _ _ _ Hx1 Hx).
      * exact Hlen'.
      * rewrite Hvb, Hvb1, existsb_app. simpl.
        rewrite orb_false_r.
        destruct (isValueBundle ds), (existsb carries_value txs'),
                 (carries_value tx); reflexivity.
      * rewrite Hiv, Hiv1, total_debit_app. simpl. unfold debit.
        destruct (Value tx <? 0).
        -- unfold add64. rewrite wrap64_add_l. f_equal. lia.
        -- f_equal. lia.
      * intros Hin. apply Hrange. rewrite Hiv1.
        destruct (Value tx <? 0); [apply wrap64_idem | exact Hin].
Qed.

Lemma decodes_lookup (E : Env) (l : list Trytes) (txs : list Transaction)
    (i : nat) (t : Trytes) (tx : Transaction) :
  decodes E l txs -> l !! i = Some t -> AsTransactionObject E t = Some tx ->
  txs !! i = Some tx.
Proof.
  intros Hdec Ht Htx.
  destruct (Forall2_lookup_l _ _ _ _ _ Hdec Ht) as (tx' & Htx' & Heq).
  congruence.
Qed.

(** A batch that decodes: the loop runs to its end. *)
Lemma decode_loop_complete (E : Env) (l : list Trytes)
    (txs : list Transaction) (wd : World) :
  decodes E l txs ->
  exists ds wd',
    decode_loop E l (length l)
      {| isValueBundle := false; inputValue := 0;
         transactions := replicate (length l) zeroTransaction |} wd
    = (LoopDone ds, wd') /\
    extends wd (flat_map value_events (reverse txs)) wd' /\
    transactions ds = txs /\
    isValueBundle ds = existsb carries_value txs /\
    inputValue ds = wrap64 (total_debit txs).
Proof.
  intros Hdec.
  destruct (decode_loop_segment E l [] l [] txs
              {| isValueBundle := false; inputValue := 0;
                 transactions := replicate (length l) zeroTransaction |} wd)
    as (ds & wd' & Hloop & Hx & Hlen & Hvb & Hiv & Hrange).
  { simpl. rewrite app_nil_r. reflexivity. }
  { exact Hdec. }
  { simpl. apply length_replicate. }
  simpl in Hloop, Hvb, Hiv, Hrange.
  exists ds, wd'. split; [exact Hloop|]. split; [exact Hx|].
  split; [|split; [exact Hvb|]].
  - destruct (decode_loop_filled _ _ _ _ _ _ _ Hloop) as (_ & Hlow & _).
    apply list_eq. intros i.
    destruct (decide (i < length l)%nat) as [Hi|Hi].
    + destruct (Hlow i Hi) as (t & tx & Ht & Htx & Hslot).
      rewrite Hslot. symmetry. eapply decodes_lookup; eauto.
    + rewrite !lookup_ge_None_2; [reflexivity | |].
      * rewrite <- (Forall2_length _ _ _ Hdec). lia.
      * rewrite Hlen. lia.
  - rewrite <- Hrange by reflexivity. exact Hiv.
Qed.

(** A batch whose last undecodable transaction is [t]: the loop logs the
    value legs of the transactions behind [t] and stops at [t]. *)
Lemma decode_loop_malformed (E : Env) (l before : list Trytes) (t : Trytes)
    (after : list Trytes) (txs : list Transaction) (wd : World) :
  l = before ++ t :: after ->
  AsTransactionObject E t = None ->
  decodes E after txs ->
  exists wd',
    decode_loop E l (length l)
      {| isValueBundle := false; inputValue := 0;
         transactions := replicate (length l) zeroTransaction |} wd
    = (LoopFailed, wd') /\
    extends wd (flat_map value_events (reverse txs)) wd'.
Proof.
  intros Hl Hbad Hdec.
  destruct (decode_loop_segment E l (before ++ [t]) after [] txs
              {| isValueBundle := false; inputValue := 0;
                 transactions := replicate (length l) zeroTransaction |} wd)
    as (ds & wd' & Hloop & Hx & _).
  { rewrite Hl, app_nil_r, <- app_assoc. reflexivity. }
  { exact Hdec. }
  { simpl. apply length_replicate. }
  exists wd'. split; [|exact Hx].
  replace (length ((before ++ [t]) ++ after)) with (length l) in Hloop
    by (rewrite Hl, <- app_assoc; reflexivity).
  rewrite Hloop, length_app. simpl length. rewrite Nat.add_1_r. simpl.
  unfold decode_step.
  assert (Hidx : l !! length before = Some t).
  { rewrite Hl. apply list_lookup_middle. reflexivity. }
  rewrite Hidx, Hbad. reflexivity.
Qed.

(** Either the whole batch decodes, or it has a last undecodable
    transaction. *)
Lemma decode_dichotomy (E : Env) (l : list Trytes) :
  (exists txs, decodes E l txs) \/
  (exists before t after txs,
     l = before ++ t :: after /\
     AsTransactionObject E t = None /\
     decodes E after txs).
Proof.
  induction l as [|a l IH].
  - left. exists []. constructor.
  - destruct IH as [(txs & Hdec) | (before & t & after & txs & -> & Hbad & Hdec)].
    + destruct (AsTransactionObject E a) as [tx|] eqn:Ha.
      * left. exists (tx :: txs). constructor; assumption.
      * right. exists [], a, l, txs. auto.
    + right. exists (a :: before), t, after, txs. auto.
Qed.

(* ===================================================================== *)
(** ** Every run follows one path                                         *)
(* ===================================================================== *)

Lemma compute_and_respond_Computed (E : Env) (command : AttachToTangleReq)
    (ws wd wd' : World) (txsCount : Z) (out : Outcome) :
  compute_and_respond E command (UnixNano ws) txsCount wd = (out, wd') ->
  exists tr,
    extends wd tr wd' /\
    Computed E command (elapsed wd) txsCount (now wd - now ws) out tr.
Proof.
  unfold compute_and_respond, logPrintf.
  fold (pow_call command). fold (pow_result E command).
  assert (Htook :
    EvLog (LogTook
             (millis
                (sub64
                   (UnixNano
                      (emit (EvPoWReturn (pow_result E command))
                         (emit (pow_call command)
                            (emit (EvLog (LogDoingPoW txsCount)) wd))))
                   (UnixNano (emit (EvLog (LogDoingPoW txsCount)) wd))))
             txsCount)
    = took_event E command (elapsed wd) txsCount).
  { unfold took_event. rewrite sub64_UnixNano. do 4 f_equal. simpl. lia. }
  rewrite Htook. clear Htook.
  assert (Hres : forall powed,
    {| Trytes_res := powed;
       Duration :=
         millis
           (sub64
              (UnixNano
                 (emit (took_event E command (elapsed wd) txsCount)
                    (emit (EvPoWReturn (pow_result E command))
                       (emit (pow_call command)
                          (emit (EvLog (LogDoingPoW txsCount)) wd)))))
              (UnixNano ws)) |}
    = response E command (elapsed wd) txsCount (now wd - now ws) powed).
  { intros powed. unfold response, compute_events.
    rewrite sub64_UnixNano. do 3 f_equal. simpl. lia. }
  destruct (pow_result E command) as [powed|] eqn:Hpow.
  - rewrite Hres.
    destruct (json_Marshal E _) as [resBytes|] eqn:Hm.
    + destruct (Write_ok E resBytes) eqn:Hw; intros H; inversion H; subst;
        (eexists; split;
         [| first [ eapply computed_responded; eassumption
                  | eapply computed_write_failed; eassumption ] ]);
        unfold compute_events; rewrite Hpow; close_extends.
    + intros H; inversion H; subst. eexists. split;
        [| eapply computed_marshal_failed; eassumption].
      unfold compute_events; rewrite Hpow; close_extends.
  - intros H; inversion H; subst. eexists. split;
      [| apply computed_pow_failed; exact Hpow].
    close_extends.
Qed.

Lemma locked_section_Locked (E : Env) (interc : Interceptor) (r : Request)
    (command : AttachToTangleReq) (wd wd' : World) (out : Outcome) :
  locked_section E interc r command wd = (out, wd') ->
  exists tr,
    extends wd tr wd' /\ Locked E interc r command (elapsed wd) out tr.
Proof.
  unfold locked_section. rewrite length_replicate.
  destruct (length (Trytes_req command) =? 0)%nat eqn:Hlen.
  { apply Nat.eqb_eq, nil_length_inv in Hlen. unfold forward.
    intros H; inversion H; subst.
    eexists. split; [|apply locked_empty; exact Hlen]. close_extends. }
  assert (Hne : Trytes_req command <> []).
  { intros Hnil. rewrite Hnil in Hlen. discriminate. }
  destruct (Z.of_nat (length (Trytes_req command)) >? maxTxInBundle E)
    eqn:Hmax.
  { apply Z.gtb_lt in Hmax. intros H; inversion H; subst.
    eexists. split; [|apply locked_too_long; [exact Hne | lia]].
    close_extends. }
  assert (Hle : Z.of_nat (length (Trytes_req command)) <= maxTxInBundle E).
  { destruct (Z.gtb_spec (Z.of_nat (length (Trytes_req command)))
                (maxTxInBundle E)); [discriminate | lia]. }
  set (wd1 := logPrintf (LogNewRequest (RemoteAddr r)) wd).
  destruct (decode_dichotomy E (Trytes_req command))
    as [(txs & Hdec) | (before & t & after & txs & Hl & Hbad & Hdec)].
  - destruct (decode_loop_complete E _ txs wd1 Hdec)
      as (ds & wd2 & -> & Hx & Htxs & Hvb & Hiv).
    destruct txs as [|tx0 txs'].
    { apply Forall2_nil_inv_r in Hdec. contradiction. }
    rewrite Htxs. simpl lookup. cbv iota. rewrite Hvb, Hiv.
    set (wd4 := if existsb carries_value (tx0 :: txs') then _ else _).
    assert (Hx4 : extends wd1 (telemetry (tx0 :: txs')) wd4).
    { unfold telemetry. eapply extends_trans; [exact Hx|].
      subst wd4. unfold bundle_events.
      destruct (existsb carries_value (tx0 :: txs')); close_extends. }
    intros H.
    destruct (compute_and_respond_Computed _ _ _ _ _ _ _ H)
      as (tr & Hxc & Hc).
    rewrite (extends_elapsed _ _ _ Hx4) in Hc.
    rewrite (extends_now _ _ _ Hx4) in Hc.
    exists (EvLog (LogNewRequest (RemoteAddr r)) :: telemetry (tx0 :: txs')
              ++ tr).
    split.
    + apply extends_cons. exact (extends_trans _ _ _ _ _ Hx4 Hxc).
    + eapply locked_computed; eauto.
  - destruct (decode_loop_malformed E _ before t after txs wd1 Hl Hbad Hdec)
      as (wd2 & -> & Hx).
    intros H; inversion H; subst.
    eexists. split; [| eapply locked_malformed; eauto].
    apply extends_cons. exact Hx.
Qed.

Lemma ServeHTTP_Path_of (E : Env) (interc : Interceptor) (r : Request)
    (wd wd' : World) (out : Outcome) :
  ServeHTTP E interc r wd = (out, wd') ->
  exists tr, extends wd tr wd' /\ Path E interc r (elapsed wd) out tr.
Proof.
  unfold ServeHTTP.
  destruct (String.eqb (Method r) MethodPost) eqn:Hm; simpl.
  2: { apply String.eqb_neq in Hm. unfold forward.
       intros H; inversion H; subst.
       eexists. split; [| apply path_not_post; exact Hm]. close_extends. }
  apply String.eqb_eq in Hm.
  destruct (Body r) as [body|] eqn:Hb.
  2: { intros H; inversion H; subst.
       eexists. split; [apply extends_refl | apply path_no_body; auto]. }
  destruct (faulty body) eqn:Hf.
  { intros H; inversion H; subst.
    eexists. split; [apply extends_refl | eapply path_read_error; eauto]. }
  destruct (json_Unmarshal E (unread body)) as [command|] eqn:Hj.
  2: { unfold forward. intros H; inversion H; subst.
       eexists. split; [| eapply path_undecodable; eauto]. close_extends. }
  destruct (String.eqb (Command command) attachToTangleCommand) eqn:Hc;
    simpl.
  2: { apply String.eqb_neq in Hc. unfold forward.
       intros H; inversion H; subst.
       eexists. split; [| eapply path_other_command; eauto]. close_extends. }
  apply String.eqb_eq in Hc.
  assert (Hi : intercepted E r command).
  { split; [exact Hm|]. exists body. auto. }
  destruct ((MWM command >? maxMWM E) || (MWM command <? 0)) eqn:Hd.
  { apply difficulty_out_of_range in Hd. intros H; inversion H; subst.
    eexists. split; [apply extends_refl | eapply path_difficulty; eauto]. }
  apply difficulty_in_range in Hd.
  destruct (locked_section E interc _ command (emit EvLock wd))
    as [out2 wd2] eqn:Hls.
  intros H; inversion H; subst.
  destruct (locked_section_Locked _ _ _ _ _ _ _ Hls) as (tr & Hx & Hlocked).
  exists (EvLock :: tr ++ [EvUnlock]). split.
  - apply extends_cons, extends_snoc. exact Hx.
  - eapply path_locked; eauto.
Qed.

(** Every run of the handler follows one of the paths, with the outcome and
    the effects of that path. *)
Lemma ServeHTTP_Path (E : Env) (interc : Interceptor) (r : Request)
    (wd : World) :
  Path E interc r (elapsed wd)
    (fst (ServeHTTP E interc r wd)) (trace_of E interc (r, wd)).
Proof.
  destruct (ServeHTTP E interc r wd) as [out wd'] eqn:Hrun.
  destruct (ServeHTTP_Path_of _ _ _ _ _ _ Hrun) as (tr & Hx & Hp).
  rewrite (trace_of_extends E interc r wd tr); [exact Hp|].
  rewrite Hrun. exact Hx.
Qed.

(* ===================================================================== *)
(** ** Passthrough                                                        *)
(* ===================================================================== *)

Lemma intercepted_functional (E : Env) (r : Request)
    (c1 c2 : AttachToTangleReq) :
  intercepted E r c1 -> intercepted E r c2 -> c1 = c2.
Proof.
  intros (_ & b1 & Hb1 & _ & Hj1 & _) (_ & b2 & Hb2 & _ & Hj2 & _).
  congruence.
Qed.

Lemma value_events_logs (tx : Transaction) : Forall is_log (value_events tx).
Proof.
  unfold value_events.
  destruct (carries_value tx); [destruct (Value tx <? 0)|];
    repeat constructor.
Qed.

Lemma value_legs_logs (txs : list Transaction) :
  Forall is_log (flat_map value_events txs).
Proof.
  induction txs as [|tx txs IH]; simpl; [constructor|].
  apply Forall_app. split; [apply value_events_logs | exact IH].
Qed.

Lemma telemetry_logs (txs : list Transaction) : Forall is_log (telemetry txs).
Proof.
  unfold telemetry. apply Forall_app. split; [apply value_legs_logs|].
  unfold bundle_events. destruct txs as [|tx0 txs]; [constructor|].
  destruct (existsb carries_value (tx0 :: txs)); repeat constructor.
Qed.

(** X1: whenever the handler forwards, it returns what the next handler
    returned, the method and the remote address of the forwarded request
    are those of the request, and the body the next handler can read is the
    body the request came with, unless the body did not decode as the
    envelope, in which case it is empty; and nothing is forwarded twice. *)
Theorem forwarded_request_shape (E : Env) (interc : Interceptor)
    (r r' : Request) (wd : World) (ret : Z * option error) :
  fst (ServeHTTP E interc r wd) = Forwarded r' ret ->
  ret = Next interc r' /\
  Method r' = Method r /\
  RemoteAddr r' = RemoteAddr r /\
  (readable_body r' = readable_body r \/
   exists body,
     Body r = Some body /\ json_Unmarshal E (unread body) = None /\
     readable_body r' = []) /\
  filter (fun e => is_Forward e = true) (trace_of E interc (r, wd))
  = [EvForward r'].
Proof.
  intros Hout. pose proof (ServeHTTP_Path E interc r wd) as Hp.
  rewrite Hout in Hp. remember (trace_of E interc (r, wd)) as tr eqn:Htr.
  clear Htr Hout.
  inversion Hp as [Hm | | | body Hm Hb Hf Hj | body command Hm Hb Hf Hj Hc
                   | | body command out tr0 Hi Hb Hd Hl]; subst; clear Hp.
  - repeat split; auto.
  - repeat split; auto. right. exists body. auto.
  - repeat split; auto. left. unfold readable_body. rewrite Hb. reflexivity.
  - inversion Hl as [Hnil | | | txs out0 tr1 Hne Hle Hdec Hcomp]; subst.
    + repeat split; auto. left. unfold readable_body. rewrite Hb.
      reflexivity.
    + inversion Hcomp.
Qed.

Lemma forwarded_request_shape_witness :
  exists r',
    fst (ServeHTTP (Fixture.env [] true 14 20) Fixture.upstream
           {| Method := "GET"; Body := None; RemoteAddr := "198.51.100.2:80" |}
           (boot 0 (fun _ => 0)))
    = Forwarded r' (StatusOK, None) /\
    Method r' = "GET".
Proof.
  exists {| Method := "GET"; Body := None; RemoteAddr := "198.51.100.2:80" |}.
  split; [reflexivity|].
  exact (proj1 (proj2 (forwarded_request_shape (Fixture.env [] true 14 20)
                         Fixture.upstream
                         {| Method := "GET"; Body := None;
                            RemoteAddr := "198.51.100.2:80" |}
                         {| Method := "GET"; Body := None;
                            RemoteAddr := "198.51.100.2:80" |}
                         (boot 0 (fun _ => 0)) (StatusOK, None)
                         eq_refl))).
Defined.

(** X2: a POST whose body decodes as an envelope with any command other
    than [attachToTangle] is forwarded with its bytes attached again; the
    run does nothing else: the mutex is not touched and nothing is logged. *)
Theorem other_command_passthrough (E : Env) (interc : Interceptor)
    (r : Request) (body : Reader) (command : AttachToTangleReq)
    (wd : World) :
  Method r = MethodPost ->
  Body r = Some body ->
  faulty body = false ->
  json_Unmarshal E (unread body) = Some command ->
  Command command <> attachToTangleCommand ->
  exists r',
    ServeHTTP E interc r wd
    = (Forwarded r' (Next interc r'), emit (EvForward r') wd) /\
    Body r' = Some (NewReader (unread body)) /\
    ReadAll (NewReader (unread body))
    = (unread body, false, {| unread := []; faulty := false |}) /\
    trace_of E interc (r, wd) = [EvForward r'].
Proof.
  intros Hm Hb Hf Hj Hc.
  exists (with_Body r (Some (NewReader (unread body)))).
  assert (Hrun : ServeHTTP E interc r wd
                 = forward interc
                     (with_Body r (Some (NewReader (unread body)))) wd).
  { unfold ServeHTTP. rewrite Hm, Hb. simpl. rewrite Hf, Hj.
    apply String.eqb_neq in Hc. rewrite Hc. reflexivity. }
  split; [exact Hrun|]. split; [reflexivity|]. split; [reflexivity|].
  apply trace_of_extends. rewrite Hrun. close_extends.
Qed.

Lemma other_command_passthrough_witness :
  exists r',
    fst (ServeHTTP
           (Fixture.env
              [{| Command := "getNodeInfo"; TrunkTxHash := "";
                  BranchTxHash := ""; MWM := 0; Trytes_req := [] |}]
              true 14 20)
           Fixture.upstream
           (Fixture.post
              (Fixture.render_request
                 {| Command := "getNodeInfo"; TrunkTxHash := "";
                    BranchTxHash := ""; MWM := 0; Trytes_req := [] |}))
           (boot 0 (fun _ => 0)))
    = Forwarded r' (StatusOK, None) /\
    readable_body r'
    = Fixture.bytes
        (Fixture.render_request
           {| Command := "getNodeInfo"; TrunkTxHash := "";
              BranchTxHash := ""; MWM := 0; Trytes_req := [] |}).
Proof.
  destruct (other_command_passthrough
              (Fixture.env
                 [{| Command := "getNodeInfo"; TrunkTxHash := "";
                     BranchTxHash := ""; MWM := 0; Trytes_req := [] |}]
                 true 14 20)
              Fixture.upstream
              (Fixture.post
                 (Fixture.render_request
                    {| Command := "getNodeInfo"; TrunkTxHash := "";
                       BranchTxHash := ""; MWM := 0; Trytes_req := [] |}))
              _ {| Command := "getNodeInfo"; TrunkTxHash := "";
                   BranchTxHash := ""; MWM := 0; Trytes_req := [] |}
              (boot 0 (fun _ => 0))
              eq_refl eq_refl eq_refl ltac:(vm_compute; reflexivity)
              ltac:(discriminate))
    as (r' & Hrun & Hbody & _).
  exists r'. split; [rewrite Hrun; reflexivity|].
  unfold readable_body. rewrite Hbody. reflexivity.
Defined.

(** X3: the handler answers with the missing-body error exactly for a POST
    without a body or with a body that cannot be read to its end, and it
    then neither forwards nor does anything else. *)
Theorem missing_body_iff (E : Env) (interc : Interceptor) (r : Request)
    (wd : World) :
  (fst (ServeHTTP E interc r wd) = Rejected StatusBadRequest ErrMissingBody
   <->
   Method r = MethodPost /\
   (Body r = None \/ exists body, Body r = Some body /\ faulty body = true))
  /\
  (fst (ServeHTTP E interc r wd) = Rejected StatusBadRequest ErrMissingBody ->
   trace_of E interc (r, wd) = []).
Proof.
  assert (Hfwd :
    fst (ServeHTTP E interc r wd) = Rejected StatusBadRequest ErrMissingBody ->
    (Method r = MethodPost /\
     (Body r = None \/ exists body, Body r = Some body /\ faulty body = true))
    /\ trace_of E interc (r, wd) = []).
  { intros Hout. pose proof (ServeHTTP_Path E interc r wd) as Hp.
    rewrite Hout in Hp. remember (trace_of E interc (r, wd)) as tr eqn:Htr.
    clear Htr Hout.
    inversion Hp as [ | Hm Hb | body Hm Hb Hf | | | 
                     | body command out tr0 Hi Hb Hd Hl]; subst; clear Hp.
    - auto.
    - split; [|reflexivity]. split; [exact Hm|]. right. eauto.
    - inversion Hl as [ | | | txs out0 tr1 Hne Hle Hdec Hcomp]; subst.
      inversion Hcomp. }
  split; [split|].
  - intros Hout. exact (proj1 (Hfwd Hout)).
  - intros (Hm & Hbody). unfold ServeHTTP. rewrite Hm. simpl.
    destruct Hbody as [-> | (body & -> & Hf)]; [reflexivity|].
    simpl. rewrite Hf. reflexivity.
  - intros Hout. exact (proj2 (Hfwd Hout)).
Qed.

Lemma missing_body_iff_witness :
  trace_of (Fixture.env [] true 14 20) Fixture.upstream
    ({| Method := "POST"; Body := None; RemoteAddr := "198.51.100.2:80" |},
     boot 0 (fun _ => 0))
  = [].
Proof.
  apply (proj2 (missing_body_iff (Fixture.env [] true 14 20) Fixture.upstream
                  {| Method := "POST"; Body := None;
                     RemoteAddr := "198.51.100.2:80" |}
                  (boot 0 (fun _ => 0)))).
  reflexivity.
Defined.

(* ===================================================================== *)
(** ** Admission to the compute stage                                     *)
(* ===================================================================== *)

Lemma locked_section_decoded (E : Env) (interc : Interceptor) (r : Request)
    (command : AttachToTangleReq) (wd : World) (txs : list Transaction) :
  Trytes_req command <> [] ->
  Z.of_nat (length (Trytes_req command)) <= maxTxInBundle E ->
  decodes E (Trytes_req command) txs ->
  exists wd4,
    extends (logPrintf (LogNewRequest (RemoteAddr r)) wd) (telemetry txs) wd4
    /\
    locked_section E interc r command wd
    = compute_and_respond E command
        (UnixNano (logPrintf (LogNewRequest (RemoteAddr r)) wd))
        (Z.of_nat (length (Trytes_req command))) wd4.
Proof.
  intros Hne Hle Hdec. unfold locked_section. rewrite length_replicate.
  destruct (length (Trytes_req command) =? 0)%nat eqn:Hlen.
  { apply Nat.eqb_eq, nil_length_inv in Hlen. contradiction. }
  destruct (Z.gtb_spec (Z.of_nat (length (Trytes_req command)))
              (maxTxInBundle E)) as [Hgt|_]; [lia|].
  set (wd1 := logPrintf (LogNewRequest (RemoteAddr r)) wd).
  destruct (decode_loop_complete E _ txs wd1 Hdec)
    as (ds & wd2 & -> & Hx & Htxs & Hvb & Hiv).
  destruct txs as [|tx0 txs'].
  { apply Forall2_nil_inv_r in Hdec. contradiction. }
  rewrite Htxs. simpl lookup. cbv iota. rewrite Hvb, Hiv.
  eexists. split; [|reflexivity].
  unfold telemetry. eapply extends_trans; [exact Hx|].
  unfold bundle_events.
  destruct (existsb carries_value (tx0 :: txs')); close_extends.
Qed.

(** The run of an intercepted request that passes validation and whose
    batch decodes: the lock, the request line, the telemetry, one of the
    four ways through [compute_and_respond], the unlock. *)
Lemma run_computed (E : Env) (interc : Interceptor) (r : Request)
    (command : AttachToTangleReq) (wd : World) (txs : list Transaction) :
  intercepted E r command ->
  0 <= MWM command <= maxMWM E ->
  Trytes_req command <> [] ->
  Z.of_nat (length (Trytes_req command)) <= maxTxInBundle E ->
  decodes E (Trytes_req command) txs ->
  exists tr,
    Computed E command (elapsed wd) (Z.of_nat (length (Trytes_req command)))
      (total_elapsed (elapsed wd) (telemetry txs))
      (fst (ServeHTTP E interc r wd)) tr /\
    trace_of E interc (r, wd)
    = EvLock :: EvLog (LogNewRequest (RemoteAddr r)) ::
      telemetry txs ++ tr ++ [EvUnlock].
Proof.
  intros Hi Hd Hne Hle Hdec.
  destruct (intercepted_in_range E interc r command wd Hi Hd)
    as (body & _ & Hrun).
  destruct (locked_section_decoded E interc
              (with_Body r (Some (NewReader (unread body)))) command
              (emit EvLock wd) txs Hne Hle Hdec) as (wd4 & Hx4 & Hls).
  rewrite Hls in Hrun.
  destruct (compute_and_respond E command _ _ wd4) as [out wd5] eqn:Hc.
  destruct (compute_and_respond_Computed _ _ _ _ _ _ _ Hc) as (tr & Hxc & Hcomp).
  rewrite (extends_elapsed _ _ _ Hx4) in Hcomp.
  rewrite (extends_now _ _ _ Hx4) in Hcomp.
  exists tr. rewrite Hrun. split; [exact Hcomp|].
  apply trace_of_extends. rewrite Hrun. simpl.
  apply extends_cons, extends_cons. rewrite app_assoc.
  apply extends_snoc. exact (extends_trans _ _ _ _ _ Hx4 Hxc).
Qed.

Lemma decodes_no_bad (E : Env) (before after : list Trytes) (t : Trytes)
    (txs : list Transaction) :
  decodes E (before ++ t :: after) txs ->
  AsTransactionObject E t = None -> False.
Proof.
  intros Hdec Hbad.
  apply Forall2_app_inv_l in Hdec as (txs1 & txs2 & _ & Hdec2 & _).
  apply Forall2_cons_inv_l in Hdec2 as (tx & _ & Htx & _). congruence.
Qed.

Lemma elem_of_logs_not (tr : list Event) (e : Event) :
  Forall is_log tr -> e ∈ tr -> is_log e.
Proof. intros H Hin. rewrite Forall_forall in H. exact (H e Hin). Qed.

(** X4: a run takes the mutex exactly when the request is intercepted and
    its difficulty is inside [0, maxMWM]; every other request is answered
    without waiting for a computation in progress. *)
Theorem lock_taken_iff (E : Env) (interc : Interceptor) (r : Request)
    (wd : World) :
  EvLock ∈ trace_of E interc (r, wd) <->
  exists command, intercepted E r command /\ 0 <= MWM command <= maxMWM E.
Proof.
  split.
  - intros Hin. pose proof (ServeHTTP_Path E interc r wd) as Hp.
    remember (fst (ServeHTTP E interc r wd)) as out eqn:Hout.
    remember (trace_of E interc (r, wd)) as tr eqn:Htr. clear Hout Htr.
    destruct Hp as [Hm | | | body Hm Hb Hf Hj | body command Hm Hb Hf Hj Hc
                    | | body command out tr0 Hi Hb Hd Hl];
      try (apply list_elem_of_singleton in Hin; discriminate);
      try (inversion Hin; fail).
    eauto.
  - intros (command & Hi & Hd).
    destruct (intercepted_in_range_locks E interc r command wd Hi Hd)
      as (tr & ->).
    apply list_elem_of_here.
Qed.

(** X5: the primitive is called exactly for an intercepted request with a
    difficulty inside [0, maxMWM] and a batch that is not empty, not longer
    than [maxTxInBundle] and decodes entirely; it is then called on the
    trunk, the branch and the raw batch of the envelope, and, [maxMWM]
    being an [int], with the difficulty of the envelope. *)
Theorem pow_called_iff (E : Env) (interc : Interceptor) (r : Request)
    (wd : World) :
  (invokes_pow (trace_of E interc (r, wd)) = true <->
   exists command txs,
     intercepted E r command /\
     0 <= MWM command <= maxMWM E /\
     Trytes_req command <> [] /\
     Z.of_nat (length (Trytes_req command)) <= maxTxInBundle E /\
     decodes E (Trytes_req command) txs) /\
  (forall trunk branch trytes mwm,
     EvPoWCall trunk branch trytes mwm ∈ trace_of E interc (r, wd) ->
     maxMWM E < 2 ^ 63 ->
     exists command,
       intercepted E r command /\
       trunk = TrunkTxHash command /\ branch = BranchTxHash command /\
       trytes = Trytes_req command /\ mwm = MWM command).
Proof.
  assert (Hshape :
    forall e, is_PoWCall e = true -> e ∈ trace_of E interc (r, wd) ->
      exists command txs,
        intercepted E r command /\
        0 <= MWM command <= maxMWM E /\
        Trytes_req command <> [] /\
        Z.of_nat (length (Trytes_req command)) <= maxTxInBundle E /\
        decodes E (Trytes_req command) txs /\
        e = pow_call command).
  { intros e He Hin. pose proof (ServeHTTP_Path E interc r wd) as Hp.
    remember (fst (ServeHTTP E interc r wd)) as out eqn:Hout.
    remember (trace_of E interc (r, wd)) as tr eqn:Htr. clear Hout Htr.
    destruct Hp as [Hm | | | body Hm Hb Hf Hj | body command Hm Hb Hf Hj Hc
                    | | body command out tr0 Hi Hb Hd Hl];
      try (apply list_elem_of_singleton in Hin; subst e; discriminate);
      try (inversion Hin; fail).
    apply elem_of_cons in Hin as [-> | Hin]; [discriminate|].
    apply elem_of_app in Hin as [Hin | Hin];
      [| apply list_elem_of_singleton in Hin; subst e; discriminate].
    destruct Hl as [Hnil | Hne Hgt | before t after txs Hle Hl Hbad Hdec
                    | txs out tr1 Hne Hle Hdec Hcomp].
    - apply list_elem_of_singleton in Hin; subst e; discriminate.
    - repeat (apply elem_of_cons in Hin as [-> | Hin]; [discriminate|]).
      inversion Hin.
    - apply elem_of_cons in Hin as [-> | Hin]; [discriminate|].
      pose proof (elem_of_logs_not _ _ (value_legs_logs _) Hin) as Hlog.
      destruct e; try contradiction; discriminate.
    - exists command, txs. repeat (split; [assumption|]).
      apply elem_of_cons in Hin as [-> | Hin]; [discriminate|].
      apply elem_of_app in Hin as [Hin | Hin].
      { pose proof (elem_of_logs_not _ _ (telemetry_logs _) Hin) as Hlog.
        destruct e; try contradiction; discriminate. }
      destruct Hcomp; unfold compute_events, took_event in Hin;
        repeat (apply elem_of_cons in Hin as [-> | Hin];
                [first [reflexivity | discriminate]|]);
        try (apply elem_of_app in Hin as [Hin | Hin]);
        repeat (apply elem_of_cons in Hin as [-> | Hin];
                [first [reflexivity | discriminate]|]);
        inversion Hin. }
  split; [split|].
  - intros Hpow. unfold invokes_pow in Hpow.
    apply existsb_exists in Hpow as (e & Hin & He).
    apply list_elem_of_In in Hin.
    destruct (Hshape e He Hin) as (command & txs & H1 & H2 & H3 & H4 & H5 & _).
    eauto 10.
  - intros (command & txs & Hi & Hd & Hne & Hle & Hdec).
    destruct (run_computed E interc r command wd txs Hi Hd Hne Hle Hdec)
      as (tr & Hcomp & ->).
    simpl. rewrite !invokes_pow_app.
    assert (Hc : invokes_pow tr = true).
    { destruct Hcomp; reflexivity. }
    rewrite Hc, orb_true_l, orb_true_r. reflexivity.
  - intros trunk branch trytes mwm Hin Hint.
    destruct (Hshape (EvPoWCall trunk branch trytes mwm) eq_refl Hin)
      as (command & txs & Hi & Hd & _ & _ & _ & Heq).
    exists command. inversion Heq; subst.
    repeat (split; [auto|]).
    unfold uint64. apply Z.mod_small. lia.
Qed.

(* ===================================================================== *)
(** ** What a run does at most once                                       *)
(* ===================================================================== *)

Lemma occurrences_app (kind : Event -> bool) (tr1 tr2 : list Event) :
  occurrences kind (tr1 ++ tr2)
  = (occurrences kind tr1 + occurrences kind tr2)%nat.
Proof. unfold occurrences. rewrite List.filter_app, length_app. reflexivity. Qed.

Lemma occurrences_logs (kind : Event -> bool) (tr : list Event) :
  (forall m, kind (EvLog m) = false) ->
  Forall is_log tr -> occurrences kind tr = 0%nat.
Proof.
  intros Hk. induction 1 as [|e tr He _ IH]; [reflexivity|].
  destruct e; try contradiction. unfold occurrences in *. simpl.
  rewrite Hk. exact IH.
Qed.

(** Rewrites the count of an effect kind over the traces of the paths. *)
Ltac count_effects :=
  repeat first
    [ rewrite occurrences_app
    | rewrite (occurrences_logs _ (telemetry _)) by
        first [ reflexivity | apply telemetry_logs ]
    | rewrite (occurrences_logs _ (flat_map value_events _)) by
        first [ reflexivity | apply value_legs_logs ] ].



(* ===================================================================== *)
(** ** The response                                                       *)
(* ===================================================================== *)

(** X7: an intercepted request that passes both checks, whose batch decodes
    and for which the primitive succeeds is answered with status 200, given
    that the response encodes and the write succeeds; the batch of the
    response is the batch the primitive returned, and the run ends with the
    two headers, the write of the encoded response and the unlock. *)
Theorem success_response (E : Env) (interc : Interceptor) (r : Request)
    (command : AttachToTangleReq) (wd : World) (txs : list Transaction)
    (powed : list Trytes) :
  intercepted E r command ->
  0 <= MWM command <= maxMWM E ->
  Trytes_req command <> [] ->
  Z.of_nat (length (Trytes_req command)) <= maxTxInBundle E ->
  decodes E (Trytes_req command) txs ->
  pow_result E command = Some powed ->
  (forall res, json_Marshal E res <> None) ->
  (forall b, Write_ok E b = true) ->
  exists res resBytes before,
    fst (ServeHTTP E interc r wd) = Responded res /\
    returned (fst (ServeHTTP E interc r wd)) = Some (StatusOK, None) /\
    Trytes_res res = powed /\
    json_Marshal E res = Some resBytes /\
    trace_of E interc (r, wd)
    = before ++ [EvSetHeader contentType contentTypeJSON;
                 EvSetHeader "access-control-allow-origin" "*";
                 EvWrite resBytes true; EvUnlock].
Proof.
  intros Hi Hd Hne Hle Hdec Hpow Hmarshal Hwrite.
  destruct (run_computed E interc r command wd txs Hi Hd Hne Hle Hdec)
    as (tr & Hcomp & Htr).
  rewrite Htr.
  destruct Hcomp as [Hfail | powed' Hpow' Hm | powed' resBytes Hpow' Hm Hw
                     | powed' resBytes Hpow' Hm Hw].
  - congruence.
  - destruct (Hmarshal _ Hm).
  - rewrite Hwrite in Hw. discriminate.
  - assert (powed' = powed) by congruence. subst powed'.
    exists (response E command (elapsed wd)
              (Z.of_nat (length (Trytes_req command)))
              (total_elapsed (elapsed wd) (telemetry txs)) powed),
      resBytes,
      (EvLock :: EvLog (LogNewRequest (RemoteAddr r)) ::
       telemetry txs ++
       compute_events E command (elapsed wd)
         (Z.of_nat (length (Trytes_req command)))).
    split; [reflexivity|].
    split; [reflexivity|]. split; [reflexivity|]. split; [exact Hm|].
    simpl. do 2 f_equal. rewrite <- !app_assoc. reflexivity.
Qed.

Lemma success_response_witness :
  exists res,
    fst (ServeHTTP
           (Fixture.env [Fixture.attach 14 [Fixture.nines 2673]] true 14 20)
           Fixture.upstream
           (Fixture.post
              (Fixture.render_request
                 (Fixture.attach 14 [Fixture.nines 2673])))
           (boot 0 (fun _ => 0)))
    = Responded res /\
    Trytes_res res = [Fixture.nines 2673].
Proof.
  destruct (success_response
              (Fixture.env [Fixture.attach 14 [Fixture.nines 2673]] true 14 20)
              Fixture.upstream
              (Fixture.post
                 (Fixture.render_request
                    (Fixture.attach 14 [Fixture.nines 2673])))
              (Fixture.attach 14 [Fixture.nines 2673])
              (boot 0 (fun _ => 0))
              [{| Address := Fixture.nines 81; Value := 0;
                  Bundle := Fixture.nines 81 |}]
              [Fixture.nines 2673])
    as (res & resBytes & before & Hout & _ & Hbatch & _).
  - fixture_intercepted.
  - simpl. lia.
  - discriminate.
  - simpl. lia.
  - repeat constructor.
  - reflexivity.
  - intros res. discriminate.
  - intros b. reflexivity.
  - exists res. split; [exact Hout | exact Hbatch].
Defined.

(** Whatever in a trace is neither a log line, nor a lock operation, nor a
    forward, was done by [compute_and_respond]. *)
Lemma compute_stage_elem (E : Env) (interc : Interceptor) (r : Request)
    (wd : World) (e : Event) :
  e ∈ trace_of E interc (r, wd) ->
  ~ is_log e -> e <> EvLock -> e <> EvUnlock -> is_Forward e = false ->
  exists command txs tr,
    intercepted E r command /\
    0 <= MWM command <= maxMWM E /\
    Trytes_req command <> [] /\
    Z.of_nat (length (Trytes_req command)) <= maxTxInBundle E /\
    decodes E (Trytes_req command) txs /\
    Computed E command (elapsed wd) (Z.of_nat (length (Trytes_req command)))
      (total_elapsed (elapsed wd) (telemetry txs))
      (fst (ServeHTTP E interc r wd)) tr /\
    e ∈ tr.
Proof.
  intros Hin Hnl Hl Hu Hf. pose proof (ServeHTTP_Path E interc r wd) as Hp.
  remember (fst (ServeHTTP E interc r wd)) as out eqn:Hout.
  remember (trace_of E interc (r, wd)) as tr eqn:Htr. clear Hout Htr.
  destruct Hp as [Hm | | | body Hm Hb Hf' Hj | body command Hm Hb Hf' Hj Hc
                  | | body command out tr0 Hi Hb Hd Hlk];
    try (apply list_elem_of_singleton in Hin; subst e; discriminate);
    try (inversion Hin; fail).
  apply elem_of_cons in Hin as [-> | Hin]; [contradiction|].
  apply elem_of_app in Hin as [Hin | Hin];
    [| apply list_elem_of_singleton in Hin; contradiction].
  destruct Hlk as [Hnil | Hne Hgt | before t after txs Hle Hlist Hbad Hdec
                   | txs out tr1 Hne Hle Hdec Hcomp].
  - apply list_elem_of_singleton in Hin; subst e; discriminate.
  - repeat (apply elem_of_cons in Hin as [-> | Hin];
            [exfalso; apply Hnl; exact I|]).
    inversion Hin.
  - apply elem_of_cons in Hin as [-> | Hin]; [exfalso; apply Hnl; exact I|].
    destruct (Hnl (elem_of_logs_not _ _ (value_legs_logs _) Hin)).
  - apply elem_of_cons in Hin as [-> | Hin]; [exfalso; apply Hnl; exact I|].
    apply elem_of_app in Hin as [Hin | Hin].
    { destruct (Hnl (elem_of_logs_not _ _ (telemetry_logs _) Hin)). }
    exists command, txs, tr1. auto 10.
Qed.



(** X9: the statuses and errors the handler itself returns: status 400
    with the missing-body, difficulty, batch-size, malformed-transaction or
    proof-of-work error, or status 500 with the response error; and a
    request that is rejected is not forwarded. *)
Theorem rejection_taxonomy (E : Env) (interc : Interceptor) (r : Request)
    (wd : World) (status : Z) (err : error) :
  fst (ServeHTTP E interc r wd) = Rejected status err ->
  ((status = StatusBadRequest /\
    (err = ErrMissingBody \/
     err = Wrapf ErrInvalidMWM "use mwm between 1-%d" (maxMWM E) \/
     err = Wrapf ErrTxBundleLimitExceeded "max allowed is %d"
             (maxTxInBundle E) \/
     err = ErrBuildingTx \/
     err = ErrExecutingProofOfWork)) \/
   (status = StatusInternalServerError /\ err = ErrBuildingRes)) /\
  occurrences is_Forward (trace_of E interc (r, wd)) = 0%nat.
Proof.
  intros Hout. pose proof (ServeHTTP_Path E interc r wd) as Hp.
  rewrite Hout in Hp. remember (trace_of E interc (r, wd)) as tr eqn:Htr.
  clear Htr Hout.
  inversion Hp as [ | | | | | | body command out tr0 Hi Hb Hd Hl]; subst;
    clear Hp; try (split; [auto 10 | reflexivity]).
  change (EvLock :: tr0 ++ [EvUnlock]) with ([EvLock] ++ tr0 ++ [EvUnlock]).
  inversion Hl as [ | | | txs out0 tr1 Hne Hle Hdec Hcomp]; subst; clear Hl.
  - split; [auto 10 | reflexivity].
  - split; [auto 10|].
    change (EvLog (LogNewRequest (RemoteAddr
              (with_Body r (Some (NewReader (unread body))))))
            :: flat_map value_events (reverse txs))
      with ([EvLog (LogNewRequest (RemoteAddr
               (with_Body r (Some (NewReader (unread body))))))]
            ++ flat_map value_events (reverse txs)).
    count_effects. reflexivity.
  - change (EvLog (LogNewRequest (RemoteAddr
              (with_Body r (Some (NewReader (unread body))))))
            :: telemetry txs ++ tr1)
      with ([EvLog (LogNewRequest (RemoteAddr
               (with_Body r (Some (NewReader (unread body))))))]
            ++ telemetry txs ++ tr1).
    inversion Hcomp; subst; (split; [auto 10|]); count_effects; reflexivity.
Qed.

Lemma rejection_taxonomy_witness :
  occurrences is_Forward
    (trace_of (Fixture.env [Fixture.attach 14 ["X"]] true 14 20)
       Fixture.upstream
       (Fixture.post (Fixture.render_request (Fixture.attach 14 ["X"])),
        boot 0 (fun _ => 0)))
  = 0%nat.
Proof.
  apply (rejection_taxonomy (Fixture.env [Fixture.attach 14 ["X"]] true 14 20)
           Fixture.upstream
           (Fixture.post (Fixture.render_request (Fixture.attach 14 ["X"])))
           (boot 0 (fun _ => 0)) StatusBadRequest ErrBuildingTx).
  vm_compute. reflexivity.
Defined.



(* ===================================================================== *)
(** ** Telemetry                                                          *)
(* ===================================================================== *)

(** X11: over a batch that decodes, the loop runs to its end; the slice it
    leaves holds the decoded transactions in the order of the batch, the
    value legs were logged last transaction first, [isValueBundle] tells
    whether any transaction carries value, and [inputValue] is the [int64]
    sum of the negative values. *)
Theorem decode_loop_totals (E : Env) (txTrytes : list Trytes)
    (txs : list Transaction) (wd : World) :
  decodes E txTrytes txs ->
  exists ds wd',
    decode_loop E txTrytes (length txTrytes)
      {| isValueBundle := false; inputValue := 0;
         transactions := replicate (length txTrytes) zeroTransaction |} wd
    = (LoopDone ds, wd') /\
    events wd' = events wd ++ flat_map value_events (reverse txs) /\
    transactions ds = txs /\
    isValueBundle ds = existsb carries_value txs /\
    inputValue ds = wrap64 (total_debit txs).
Proof.
  intros Hdec.
  destruct (decode_loop_complete E txTrytes txs wd Hdec)
    as (ds & wd' & Hloop & (Hev & _) & Htxs & Hvb & Hiv).
  eauto 10.
Qed.

Lemma decode_loop_totals_witness :
  exists ds wd',
    decode_loop (Fixture.env [] true 14 20)
      [Fixture.nines 2673; Fixture.nines 2673] 2
      {| isValueBundle := false; inputValue := 0;
         transactions := [zeroTransaction; zeroTransaction] |}
      (boot 0 (fun _ => 0))
    = (LoopDone ds, wd') /\
    isValueBundle ds = false /\ inputValue ds = 0.
Proof.
  destruct (decode_loop_totals (Fixture.env [] true 14 20)
              [Fixture.nines 2673; Fixture.nines 2673]
              [{| Address := Fixture.nines 81; Value := 0;
                  Bundle := Fixture.nines 81 |};
               {| Address := Fixture.nines 81; Value := 0;
                  Bundle := Fixture.nines 81 |}]
              (boot 0 (fun _ => 0)) ltac:(repeat constructor))
    as (ds & wd' & Hloop & _ & _ & Hvb & Hiv).
  exists ds, wd'. split; [exact Hloop|]. split; [exact Hvb | exact Hiv].
Defined.

(** X12: decoding goes from the last transaction of the batch to the
    first and stops at the first failure: for a validated request whose
    last undecodable transaction is [t], the handler answers with the
    malformed-transaction error after logging the value legs of the
    transactions behind [t], last first; the transactions in front of [t]
    are never looked at. *)
Theorem malformed_stops_at_last (E : Env) (interc : Interceptor)
    (r : Request) (command : AttachToTangleReq) (wd : World)
    (before : list Trytes) (t : Trytes) (after : list Trytes)
    (txs : list Transaction) :
  intercepted E r command ->
  0 <= MWM command <= maxMWM E ->
  Z.of_nat (length (Trytes_req command)) <= maxTxInBundle E ->
  Trytes_req command = before ++ t :: after ->
  AsTransactionObject E t = None ->
  decodes E after txs ->
  fst (ServeHTTP E interc r wd) = Rejected StatusBadRequest ErrBuildingTx /\
  trace_of E interc (r, wd)
  = [EvLock; EvLog (LogNewRequest (RemoteAddr r))] ++
    flat_map value_events (reverse txs) ++ [EvUnlock].
Proof.
  intros Hi Hd Hle Hl Hbad Hdec.
  destruct (intercepted_in_range E interc r command wd Hi Hd)
    as (body & _ & Hrun).
  assert (Hls : exists wd2,
    locked_section E interc
      (with_Body r (Some (NewReader (unread body)))) command (emit EvLock wd)
    = (Rejected StatusBadRequest ErrBuildingTx, wd2) /\
    extends (logPrintf (LogNewRequest (RemoteAddr r)) (emit EvLock wd))
      (flat_map value_events (reverse txs)) wd2).
  { unfold locked_section. rewrite length_replicate.
    destruct (length (Trytes_req command) =? 0)%nat eqn:Hlen.
    { apply Nat.eqb_eq, nil_length_inv in Hlen. rewrite Hlen in Hl.
      destruct before; discriminate. }
    destruct (Z.gtb_spec (Z.of_nat (length (Trytes_req command)))
                (maxTxInBundle E)) as [Hgt|_]; [lia|].
    destruct (decode_loop_malformed E _ before t after txs
                (logPrintf (LogNewRequest (RemoteAddr r)) (emit EvLock wd))
                Hl Hbad Hdec) as (wd2 & Hloop & Hx).
    simpl RemoteAddr. rewrite Hloop. eauto. }
  destruct Hls as (wd2 & Hls & Hx). rewrite Hls in Hrun.
  split; [rewrite Hrun; reflexivity|].
  apply trace_of_extends. rewrite Hrun. simpl.
  apply extends_cons, extends_cons, extends_snoc. exact Hx.
Qed.

Lemma malformed_stops_at_last_witness :
  trace_of (Fixture.env [Fixture.attach 14 ["X"; Fixture.nines 2673]] true 14 20)
    Fixture.upstream
    (Fixture.post
       (Fixture.render_request (Fixture.attach 14 ["X"; Fixture.nines 2673])),
     boot 0 (fun _ => 0))
  = [EvLock; EvLog (LogNewRequest "203.0.113.7:51820"); EvUnlock].
Proof.
  apply (malformed_stops_at_last
           (Fixture.env [Fixture.attach 14 ["X"; Fixture.nines 2673]] true 14 20)
           Fixture.upstream
           (Fixture.post
              (Fixture.render_request
                 (Fixture.attach 14 ["X"; Fixture.nines 2673])))
           (Fixture.attach 14 ["X"; Fixture.nines 2673])
           (boot 0 (fun _ => 0)) [] "X" [Fixture.nines 2673]
           [{| Address := Fixture.nines 81; Value := 0;
               Bundle := Fixture.nines 81 |}]).
  - fixture_intercepted.
  - simpl. lia.
  - simpl. lia.
  - reflexivity.
  - reflexivity.
  - repeat constructor.
Defined.

(* ===================================================================== *)
(** ** Bounds on the duration                                             *)
(* ===================================================================== *)

Lemma total_elapsed_nonneg (timing : Event -> Z) (tr : list Event) :
  (forall e, 0 <= timing e) -> 0 <= total_elapsed timing tr.
Proof.
  intros Hpos. induction tr as [|e tr IH]; simpl; [lia|].
  specialize (Hpos e). lia.
Qed.

Lemma wrap64_in_range (x : Z) : - 2 ^ 63 <= x < 2 ^ 63 -> wrap64 x = x.
Proof. intros H. unfold wrap64. rewrite Z.mod_small; lia. Qed.

Lemma millis_mono (a b : Z) : 0 <= a <= b -> 0 <= millis a <= millis b.
Proof.
  intros H. unfold millis. split.
  - apply Z.quot_pos; lia.
  - apply Z.quot_le_mono; lia.
Qed.

(** X13: with a clock that does not run backwards and a run shorter than
    2^63 ns, the duration of a successful response is at least the time
    spent in the primitive and at most the time of the whole run less the
    time spent waiting for the mutex, all in whole milliseconds; in
    particular it is not negative. *)
Theorem duration_bounds (E : Env) (interc : Interceptor) (r : Request)
    (wd : World) (res : AttachToTangleRes) :
  fst (ServeHTTP E interc r wd) = Responded res ->
  (forall e, 0 <= elapsed wd e) ->
  total_elapsed (elapsed wd) (trace_of E interc (r, wd)) < 2 ^ 63 ->
  exists command,
    intercepted E r command /\
    0 <= millis (elapsed wd (pow_call command)
                 + elapsed wd (EvPoWReturn (Some (Trytes_res res))))
      <= Duration res /\
    Duration res
    <= millis (total_elapsed (elapsed wd) (trace_of E interc (r, wd))
               - elapsed wd EvLock).
Proof.
  intros Hout Hpos Hsmall. pose proof (ServeHTTP_Path E interc r wd) as Hp.
  rewrite Hout in Hp. remember (trace_of E interc (r, wd)) as tr eqn:Htr.
  clear Htr Hout.
  inversion Hp as [ | | | | | | body command out tr0 Hi Hb Hd Hl]; subst;
    clear Hp.
  inversion Hl as [ | | | txs out0 tr1 Hne Hle Hdec Hcomp]; subst; clear Hl.
  inversion Hcomp as [ | | | powed resBytes Hpow Hm Hw]; subst; clear Hcomp.
  exists command. split; [exact Hi|].
  unfold response. simpl Trytes_res. simpl Duration.
  revert Hsmall. simpl total_elapsed.
  rewrite !total_elapsed_app.
  unfold compute_events. rewrite Hpow. simpl total_elapsed.
  pose proof (total_elapsed_nonneg (elapsed wd) (telemetry txs) Hpos) as Ht.
  pose proof (Hpos EvLock). pose proof (Hpos EvUnlock).
  pose proof (Hpos (EvLog (LogNewRequest (RemoteAddr r)))).
  pose proof (Hpos (EvLog (LogDoingPoW
                (Z.of_nat (length (Trytes_req command)))))).
  pose proof (Hpos (pow_call command)).
  pose proof (Hpos (EvPoWReturn (Some powed))).
  pose proof (Hpos (took_event E command (elapsed wd)
                (Z.of_nat (length (Trytes_req command))))).
  pose proof (Hpos (EvSetHeader contentType contentTypeJSON)).
  pose proof (Hpos (EvSetHeader "access-control-allow-origin" "*")).
  pose proof (Hpos (EvWrite resBytes true)).
  intros Hsmall.
  rewrite wrap64_in_range by lia.
  split.
  - apply millis_mono. lia.
  - apply millis_mono. lia.
Qed.

Lemma duration_bounds_witness :
  exists res,
    fst (ServeHTTP
           (Fixture.env [Fixture.attach 14 [Fixture.nines 2673]] true 14 20)
           Fixture.upstream
           (Fixture.post
              (Fixture.render_request
                 (Fixture.attach 14 [Fixture.nines 2673])))
           (boot 0 (Fixture.lock_wait 5000000000)))
    = Responded res /\
    Duration res <= 0.
Proof.
  exists {| Trytes_res := [Fixture.nines 2673]; Duration := 0 |}.
  split; [vm_compute; reflexivity|].
  destruct (duration_bounds
              (Fixture.env [Fixture.attach 14 [Fixture.nines 2673]] true 14 20)
              Fixture.upstream
              (Fixture.post
                 (Fixture.render_request
                    (Fixture.attach 14 [Fixture.nines 2673])))
              (boot 0 (Fixture.lock_wait 5000000000))
              {| Trytes_res := [Fixture.nines 2673]; Duration := 0 |})
    as (command & _ & _ & Hupper).
  - vm_compute. reflexivity.
  - intros e. destruct e; simpl; lia.
  - vm_compute. reflexivity.
  - simpl Duration. lia.
Defined.

(* ===================================================================== *)
(** ** Progress of the pool                                               *)
(* ===================================================================== *)

Lemma reachable_pool_ok (E : Env) (interc : Interceptor)
    (jobs : list (Request * World)) (p : Pool) :
  reachable (spawn E interc jobs) p -> pool_ok p.
Proof. intros H. exact (reachable_ok _ _ H (spawn_ok E interc jobs)). Qed.

(** A locked mutex has a holder. *)
Lemma holder_exists (E : Env) (interc : Interceptor)
    (jobs : list (Request * World)) (p : Pool) :
  reachable (spawn E interc jobs) p ->
  mu p = true ->
  exists i g, goroutines p !! i = Some g /\ holding (performed g) = true.
Proof.
  intros Hreach. unfold reachable in Hreach. pattern p.
  eapply rtc_ind_r; [ | | exact Hreach]; clear p Hreach;
    [discriminate|].
  intros p q Hpq Hstep IH.
  pose proof (reachable_pool_ok E interc jobs p Hpq) as (Hg & _ & _).
  destruct Hstep as [i g rest gs Hi Hp | i g rest gs Hi Hp
                     | i g e rest gs held Hi Hp Hnl Hnu]; simpl in *.
  - intros _. exists i, (advance g). split.
    + apply list_lookup_insert_eq. eapply lookup_lt_Some. exact Hi.
    + rewrite (advance_performed g _ rest Hp). simpl.
      rewrite holding_snoc. reflexivity.
  - discriminate.
  - intros Hheld. destruct (IH Hheld) as (j & gj & Hj & Hh).
    destruct (decide (j = i)) as [->|Hne].
    + exists i, (advance g). split.
      * apply list_lookup_insert_eq. eapply lookup_lt_Some. exact Hi.
      * assert (gj = g) by congruence. subst gj.
        rewrite (advance_performed g e rest Hp). simpl.
        rewrite holding_snoc, Hh. destruct e; try reflexivity; contradiction.
    + exists j, gj. split; [|exact Hh].
      rewrite list_lookup_insert_ne by auto. exact Hj.
Qed.

Lemma backlog_insert (gs : list Goroutine) :
  forall (i : nat) (g : Goroutine) (e : Event) (rest : list Event),
    gs !! i = Some g -> pending g = e :: rest ->
    foldr (fun g acc => (length (pending g) + acc)%nat) 0%nat gs
    = S (foldr (fun g acc => (length (pending g) + acc)%nat) 0%nat
           (<[i := advance g]> gs)).
Proof.
  induction gs as [|g0 gs IH]; intros i g e rest Hi Hp; [discriminate|].
  destruct i as [|i]; simpl in *.
  - inversion Hi; subst g0. rewrite (advance_performed g e rest Hp), Hp.
    simpl. reflexivity.
  - rewrite (IH i g e rest Hi Hp). lia.
Qed.

Lemma step_backlog (p q : Pool) : step p q -> backlog p = S (backlog q).
Proof.
  intros Hstep. unfold backlog.
  destruct Hstep; simpl; eapply backlog_insert; eauto.
Qed.

Lemma backlog_zero (gs : list Goroutine) :
  foldr (fun g acc => (length (pending g) + acc)%nat) 0%nat gs = 0%nat ->
  forall i g, gs !! i = Some g -> pending g = [].
Proof.
  induction gs as [|g0 gs IH]; intros Hz i g Hi; [discriminate|].
  simpl in Hz. destruct i as [|i]; simpl in Hi.
  - inversion Hi; subst. apply nil_length_inv. lia.
  - apply (IH ltac:(lia) i g Hi).
Qed.

Lemma backlog_pos (gs : list Goroutine) :
  foldr (fun g acc => (length (pending g) + acc)%nat) 0%nat gs <> 0%nat ->
  exists i g e rest, gs !! i = Some g /\ pending g = e :: rest.
Proof.
  induction gs as [|g0 gs IH]; intros Hnz; [contradiction|].
  simpl in Hnz. destruct (pending g0) as [|e rest] eqn:Hp.
  - destruct (IH ltac:(simpl in Hnz; lia)) as (i & g & e & rest & Hi & Hpg).
    exists (S i), g, e, rest. auto.
  - exists 0%nat, g0, e, rest. auto.
Qed.

(** Some goroutine can always move, as long as one has something left to
    do: the holder of the mutex if it is locked, anyone otherwise. *)
Lemma fire_progress (E : Env) (interc : Interceptor)
    (jobs : list (Request * World)) (p : Pool) :
  reachable (spawn E interc jobs) p ->
  backlog p <> 0%nat ->
  exists i q, fire i p = Some q.
Proof.
  intros Hreach Hnz.
  pose proof (reachable_pool_ok E interc jobs p Hreach) as (Hg & Hmu & _).
  destruct (mu p) eqn:Hlocked.
  - destruct (holder_exists E interc jobs p Hreach Hlocked)
      as (i & g & Hi & Hh).
    destruct (Hg i g Hi) as (Hwl & _). rewrite Hh in Hwl.
    exists i. unfold fire. rewrite Hi, Hlocked.
    destruct (pending g) as [|e rest]; [discriminate|].
    destruct e; simpl in Hwl; try discriminate; eauto.
  - destruct (backlog_pos _ Hnz) as (i & g & e & rest & Hi & Hp).
    destruct (Hg i g Hi) as (Hwl & _). rewrite Hp in Hwl.
    assert (Hh : holding (performed g) = false).
    { destruct (holding (performed g)) eqn:Hh; [|reflexivity].
      discriminate (Hmu i g Hi Hh). }
    rewrite Hh in Hwl.
    exists i. unfold fire. rewrite Hi, Hp, Hlocked.
    destruct e; simpl in Hwl; try discriminate; eauto.
Qed.

Lemma idle_finished (E : Env) (interc : Interceptor)
    (jobs : list (Request * World)) (p : Pool) :
  reachable (spawn E interc jobs) p -> backlog p = 0%nat -> finished p.
Proof.
  intros Hreach Hz.
  pose proof (backlog_zero _ Hz) as Hdone.
  split; [|exact Hdone].
  destruct (mu p) eqn:Hlocked; [|reflexivity].
  destruct (holder_exists E interc jobs p Hreach Hlocked) as (i & g & Hi & Hh).
  pose proof (reachable_pool_ok E interc jobs p Hreach) as (Hg & _ & _).
  destruct (Hg i g Hi) as (Hwl & _).
  rewrite (Hdone i g Hi), Hh in Hwl. discriminate.
Qed.


(** X15: every execution ends: each step takes one effect off the backlog
    of the pool, and from any reachable pool a schedule of exactly as many
    steps as the backlog is long answers every request and leaves the mutex
    free. *)
Theorem all_requests_complete (E : Env) (interc : Interceptor)
    (jobs : list (Request * World)) (p : Pool) :
  reachable (spawn E interc jobs) p ->
  (forall q, step p q -> backlog p = S (backlog q)) /\
  exists schedule q,
    run schedule p = Some q /\ finished q /\ length schedule = backlog p.
Proof.
  intros Hreach. split; [intros q; apply step_backlog|].
  remember (backlog p) as n eqn:Hn. revert p Hreach Hn.
  induction n as [|n IH]; intros p Hreach Hn.
  - exists [], p. split; [reflexivity|]. split; [|reflexivity].
    apply (idle_finished E interc jobs p Hreach). auto.
  - destruct (fire_progress E interc jobs p Hreach ltac:(lia))
      as (i & q & Hfire).
    pose proof (fire_step _ _ _ Hfire) as Hstep.
    destruct (IH q) as (schedule & q' & Hrun & Hfin & Hlen).
    + eapply rtc_r; [exact Hreach | exact Hstep].
    + pose proof (step_backlog _ _ Hstep). lia.
    + exists (i :: schedule), q'. simpl. rewrite Hfire.
      split; [exact Hrun|]. split; [exact Hfin | lia].
Qed.


Lemma all_requests_complete_witness :
  let job :=
    (Fixture.post (Fixture.render_request (Fixture.attach 14 ["X"])),
     boot 0 (fun _ => 0)) in
  let start :=
    spawn (Fixture.env [Fixture.attach 14 ["X"]] true 14 20)
      Fixture.upstream [job; job] in
  exists schedule q,
    run schedule start = Some q /\ finished q /\ length schedule = 6%nat.
Proof.
  intros job start.
  destruct (all_requests_complete
              (Fixture.env [Fixture.attach 14 ["X"]] true 14 20)
              Fixture.upstream [job; job] start (rtc_refl _ _))
    as (_ & schedule & q & Hrun & Hfin & Hlen).
  exists schedule, q. split; [exact Hrun|]. split; [exact Hfin|].
  rewrite Hlen. vm_compute. reflexivity.
Defined.

(* ===================================================================== *)
(** ** Start-up                                                           *)
(* ===================================================================== *)

Lemma setup_args_count (H : Host) (args : list string) :
  forall i pkg, fst (setup_args H args i pkg) = (i + length args)%nat.
Proof.
  induction args as [|val args IH]; intros i pkg; simpl; [lia|].
  rewrite IH. lia.
Qed.

Lemma setup_arg_keeps (H : Host) (i : nat) (val : string) (pkg : Package) :
  powFn (setup_arg H i val pkg) = powFn pkg /\
  middlewares (setup_arg H i val pkg) = middlewares pkg /\
  ((1 <= i)%nat ->
   var_maxMWM (setup_arg H i val pkg) = var_maxMWM pkg) /\
  ((2 <= i)%nat -> setup_arg H i val pkg = pkg).
Proof.
  unfold setup_arg.
  destruct i as [|[|i]]; [| |repeat split; auto];
    destruct (Atoi H val); simpl; repeat split; auto; lia.
Qed.

Lemma setup_args_keeps (H : Host) (args : list string) :
  forall i pkg,
    powFn (snd (setup_args H args i pkg)) = powFn pkg /\
    middlewares (snd (setup_args H args i pkg)) = middlewares pkg /\
    ((1 <= i)%nat ->
     var_maxMWM (snd (setup_args H args i pkg)) = var_maxMWM pkg) /\
    ((2 <= i)%nat -> snd (setup_args H args i pkg) = pkg).
Proof.
  induction args as [|val args IH]; intros i pkg; simpl; [auto|].
  destruct (IH (S i) (setup_arg H i val pkg)) as (H1 & H2 & H3 & H4).
  destruct (setup_arg_keeps H i val pkg) as (K1 & K2 & K3 & K4).
  split; [congruence|]. split; [congruence|]. split.
  - intros Hi. rewrite H3 by lia. auto.
  - intros Hi. rewrite H4 by lia. auto.
Qed.

(** Once two arguments have been read, further lines are accepted only if
    they carry no argument, and they change nothing. *)
Lemma setup_lines_after_two (H : Host) (c : list (list string))
    (pkg : Package) :
  (Forall (fun args => args = []) c ->
   setup_lines H c 2 pkg = (SetupOk, pkg)) /\
  (fst (setup_lines H c 2 pkg) = SetupOk ->
   Forall (fun args => args = []) c).
Proof.
  induction c as [|args c IH]; simpl.
  - split; [reflexivity | constructor].
  - destruct (setup_args H args 2 pkg) as [i' pkg'] eqn:Hargs.
    pose proof (setup_args_count H args 2 pkg) as Hcount.
    rewrite Hargs in Hcount. simpl in Hcount.
    split.
    + intros Hall. inversion Hall as [|x l Hnil Hrest]; subst.
      simpl in Hargs. inversion Hargs; subst. simpl.
      apply IH. exact Hrest.
    + destruct (Nat.eqb_spec i' 2) as [Heq|Hne]; simpl; [|discriminate].
      assert (Hnil : args = []) by (apply nil_length_inv; lia).
      subst args. simpl in Hargs. inversion Hargs; subst.
      intros Hok. constructor; [reflexivity|]. apply IH. exact Hok.
Qed.

Lemma setup_ok_inv (H : Host) (c : list (list string)) (pkg : Package) :
  fst (setup H c pkg) = SetupOk <->
  fst (setup_lines H c 0
         {| powFn := Some (fastest H);
            var_maxTxInBundle := var_maxTxInBundle pkg;
            var_maxMWM := var_maxMWM pkg; middlewares := middlewares pkg;
            setup_log := setup_log pkg |}) = SetupOk.
Proof.
  unfold setup. destruct (setup_lines H c 0 _) as [[|] pkg1]; simpl;
    split; auto.
Qed.

(** X16: [setup] accepts a configuration exactly when the directive has
    no line at all, or its first line has exactly two arguments and every
    further line has none: the argument counter is not reset between
    lines. *)
Theorem setup_succeeds_iff (H : Host) (c : list (list string))
    (pkg : Package) :
  fst (setup H c pkg) = SetupOk <->
  c = [] \/
  exists a b rest,
    c = [a; b] :: rest /\ Forall (fun args => args = []) rest.
Proof.
  rewrite setup_ok_inv.
  destruct c as [|args rest]; simpl; [split; auto|].
  set (pkg0 := {| powFn := Some (fastest H);
                  var_maxTxInBundle := var_maxTxInBundle pkg;
                  var_maxMWM := var_maxMWM pkg;
                  middlewares := middlewares pkg;
                  setup_log := setup_log pkg |}).
  destruct (setup_args H args 0 pkg0) as [i' pkg'] eqn:Hargs.
  pose proof (setup_args_count H args 0 pkg0) as Hcount.
  rewrite Hargs in Hcount. simpl in Hcount. subst i'.
  destruct (Nat.eqb_spec (length args) 2) as [Heq|Hne]; simpl.
  - destruct args as [|a [|b [|x args]]]; try discriminate.
    split.
    + intros Hok. right. exists a, b, rest. split; [reflexivity|].
      exact (proj2 (setup_lines_after_two H rest pkg') Hok).
    + intros [Hnil | (a' & b' & rest' & Heq' & Hall)]; [discriminate|].
      inversion Heq'; subst. simpl length.
      rewrite (proj1 (setup_lines_after_two H _ pkg') Hall). reflexivity.
  - split; [discriminate|].
    intros [Hnil | (a' & b' & rest' & Heq' & Hall)]; [discriminate|].
    inversion Heq'; subst. simpl in Hne. contradiction.
Qed.

Lemma setup_two_arguments (H : Host) (a b : string)
    (rest : list (list string)) (pkg : Package) :
  Forall (fun args => args = []) rest ->
  var_maxMWM (snd (setup H ([a; b] :: rest) pkg))
  = default defaultMaxMWM (Atoi H a) /\
  var_maxTxInBundle (snd (setup H ([a; b] :: rest) pkg))
  = default defaultMaxTxsInBundle (Atoi H b) /\
  powFn (snd (setup H ([a; b] :: rest) pkg)) = Some (fastest H) /\
  middlewares (snd (setup H ([a; b] :: rest) pkg)) = S (middlewares pkg).
Proof.
  intros Hall. unfold setup. simpl.
  rewrite (proj1 (setup_lines_after_two H rest _) Hall). simpl.
  unfold setup_arg. destruct (Atoi H a), (Atoi H b); simpl; auto.
Qed.

(** X17: after a successful [setup] on the arguments [a] and [b], the
    difficulty limit is what [Atoi] makes of [a], or 14 if [a] is not a
    number, and the batch limit what it makes of [b], or 20; no bound is
    put on either, so zero and negative limits are taken as they are; the
    proof-of-work implementation is installed and one middleware is
    registered. *)
Theorem setup_limits (H : Host) (a b : string) (rest : list (list string))
    (pkg : Package) :
  Forall (fun args => args = []) rest ->
  let pkg' := snd (setup H ([a; b] :: rest) pkg) in
  var_maxMWM pkg' = default defaultMaxMWM (Atoi H a) /\
  var_maxTxInBundle pkg' = default defaultMaxTxsInBundle (Atoi H b) /\
  powFn pkg' = Some (fastest H) /\
  middlewares pkg' = S (middlewares pkg).
Proof.
  intros Hall pkg'. subst pkg'. apply setup_two_arguments. exact Hall.
Qed.

Lemma setup_limits_witness :
  let pkg' :=
    snd (setup (table_host [("14", 14); ("-1", -1)]) [["14"; "-1"]]
           initial_package) in
  var_maxMWM pkg' = 14 /\ var_maxTxInBundle pkg' = -1.
Proof.
  intros pkg'.
  destruct (setup_limits (table_host [("14", 14); ("-1", -1)]) "14" "-1" []
              initial_package ltac:(constructor))
    as (Hm & Ht & _).
  split; [exact Hm | exact Ht].
Defined.

(** X18: a first line with one argument, or with more than two, makes
    [setup] fail, but not without trace: the difficulty limit has already
    been overwritten from the first argument and the proof-of-work
    implementation installed, while no middleware is registered. *)
Theorem setup_failure_keeps_changes (H : Host) (a : string)
    (args : list string) (rest : list (list string)) (pkg : Package) :
  length args <> 1%nat ->
  let result := setup H ((a :: args) :: rest) pkg in
  fst result = ArgErr /\
  var_maxMWM (snd result) = default defaultMaxMWM (Atoi H a) /\
  powFn (snd result) = Some (fastest H) /\
  middlewares (snd result) = middlewares pkg.
Proof.
  intros Hlen result. subst result. unfold setup.
  cbn [setup_lines setup_args].
  set (pkg0 := {| powFn := Some (fastest H);
                  var_maxTxInBundle := var_maxTxInBundle pkg;
                  var_maxMWM := var_maxMWM pkg;
                  middlewares := middlewares pkg;
                  setup_log := setup_log pkg |}).
  destruct (setup_args H args 1 (setup_arg H 0 a pkg0)) as [i' pkg1] eqn:Hargs.
  pose proof (setup_args_count H args 1 (setup_arg H 0 a pkg0)) as Hcount.
  destruct (setup_args_keeps H args 1 (setup_arg H 0 a pkg0))
    as (K1 & K2 & K3 & _).
  specialize (K3 (le_n 1)).
  rewrite Hargs in Hcount, K1, K2, K3. simpl in Hcount.
  simpl snd in K1, K2, K3.
  destruct (Nat.eqb_spec i' 2) as [Heq|Hne]; simpl; [lia|].
  split; [reflexivity|]. rewrite K1, K2, K3.
  unfold setup_arg. destruct (Atoi H a); simpl; auto.
Qed.

Lemma setup_failure_keeps_changes_witness :
  let result :=
    setup (table_host [("9", 9)]) [["9"]] initial_package in
  fst result = ArgErr /\ var_maxMWM (snd result) = 9.
Proof.
  intros result.
  destruct (setup_failure_keeps_changes (table_host [("9", 9)]) "9" [] []
              initial_package ltac:(discriminate))
    as (Herr & Hm & _).
  split; [exact Herr | exact Hm].
Defined.

(** X19: what [setup] configures is what the handler enforces: after a
    successful [setup] on the arguments [a] and [b], the primitive is only
    ever called for an envelope whose difficulty is between 0 and the
    configured difficulty limit and whose batch has between 1 and the
    configured batch limit transactions. *)
Theorem configured_limits_enforced (H : Host) (a b : string)
    (rest : list (list string)) (pkg : Package) (E : Env)
    (interc : Interceptor) (r : Request) (wd : World)
    (trunk branch : Trytes) (trytes : list Trytes) (mwm : Z) :
  Forall (fun args => args = []) rest ->
  EvPoWCall trunk branch trytes mwm
  ∈ trace_of (with_limits (snd (setup H ([a; b] :: rest) pkg)) E) interc
      (r, wd) ->
  exists command,
    json_Unmarshal E (readable_body r) = Some command /\
    trytes = Trytes_req command /\
    mwm = uint64 (MWM command) /\
    0 <= MWM command <= default defaultMaxMWM (Atoi H a) /\
    0 < Z.of_nat (length trytes)
      <= default defaultMaxTxsInBundle (Atoi H b).
Proof.
  intros Hall Hin.
  destruct (compute_stage_elem _ interc r wd _ Hin)
    as (command & txs & tr & Hi & Hd & Hne & Hle & Hdec & Hcomp & Hin');
    try discriminate; try reflexivity; [intros []|].
  assert (Hcall : EvPoWCall trunk branch trytes mwm = pow_call command).
  { remember (fst (ServeHTTP _ interc r wd)) as out eqn:Hout. clear Hout.
    destruct Hcomp; unfold compute_events, took_event in Hin';
      try (apply elem_of_app in Hin' as [Hin' | Hin']);
      repeat (apply elem_of_cons in Hin' as [Heq | Hin'];
              [first [discriminate | exact Heq]|]);
      inversion Hin'. }
  inversion Hcall; subst.
  destruct (setup_two_arguments H a b rest pkg Hall) as (Hm & Ht & _).
  simpl in Hd, Hle. rewrite Hm in Hd. rewrite Ht in Hle.
  destruct Hi as (_ & body & Hb & _ & Hj & _).
  exists command. split.
  { unfold readable_body. rewrite Hb. exact Hj. }
  repeat split; try lia.
  destruct (Trytes_req command); [contradiction | simpl; lia].
Qed.

Lemma configured_limits_enforced_witness :
  exists command,
    json_Unmarshal (Fixture.env [Fixture.attach 14 [Fixture.nines 2673]]
                      true 0 0)
      (readable_body
         (Fixture.post
            (Fixture.render_request (Fixture.attach 14 [Fixture.nines 2673]))))
    = Some command /\
    0 <= MWM command <= 14.
Proof.
  destruct (configured_limits_enforced
              (table_host [("14", 14); ("20", 20)]) "14" "20" []
              initial_package
              (Fixture.env [Fixture.attach 14 [Fixture.nines 2673]] true 0 0)
              Fixture.upstream
              (Fixture.post
                 (Fixture.render_request
                    (Fixture.attach 14 [Fixture.nines 2673])))
              (boot 0 (fun _ => 0))
              (Fixture.nines 81) (Fixture.nines 81) [Fixture.nines 2673] 14)
    as (command & Hj & _ & _ & Hd & _).
  - constructor.
  - vm_compute. do 4 apply list_elem_of_further. apply list_elem_of_here.
  - exists command. split; [exact Hj | exact Hd].
Defined.
